(** * Block assembly script (index.js): a shallow embedding

    The script reads a pool of transactions, keeps the ones that pass
    [validateTransaction], sums their fees, builds a coinbase transaction,
    commits to the transaction list with a Merkle root, searches a nonce and
    writes a report.  Every definition below is a transcription of one
    function or statement block of index.js; the Node.js built-ins the
    script calls (Buffer, crypto's SHA-256, number-to-string conversion, the
    relational operator on a string and a number) are modelled next to
    them.

    Conventions.
    - A JavaScript string is the [string] of its bytes; a Buffer is a
      [list byte].
    - A JavaScript number that holds an integer is a [Z], and the result
      of an operation on numbers is a [JsNumber]: the double nearest to the
      exact result, with the rounding written out (a sum is exact up to
      2^53 in magnitude, and rounded to even past it), an infinity, or NaN.
      The text of a number is modelled for the safe integers.
    - Records read from JSON follow the data model of the specification
      (a number where a number is expected, a string where a string is
      expected); a property that the script guards with [||] is an
      [option]. *)

From Stdlib Require Import ZArith NArith List String Ascii Bool Lia.
From Stdlib Require Import Strings.Byte.
From Stdlib Require Import DecimalString.
From Stdlib Require DecimalZ DecimalPos.
From stdpp Require Import base option gmap strings fin_maps.
Import ListNotations.

Local Open Scope Z_scope.

(** ** Bytes and hexadecimal text (Buffer.from(s, "hex"), digest("hex")) *)

Module Hex.

Definition byte_of_Z (z : Z) : byte :=
  match Byte.of_N (Z.to_N (z mod 256)) with
  | Some b => b
  | None => x00
  end.

Definition Z_of_byte (b : byte) : Z := Z.of_N (Byte.to_N b).

(** The value of one hexadecimal digit, either case; [None] for any other
    character. *)
Definition unhex (c : ascii) : option Z :=
  let n := Z.of_N (N_of_ascii c) in
  if (48 <=? n) && (n <=? 57) then Some (n - 48)
  else if (97 <=? n) && (n <=? 102) then Some (n - 87)
  else if (65 <=? n) && (n <=? 70) then Some (n - 55)
  else None.

(** Buffer.from(s, "hex"): two digits make a byte; decoding stops at the
    first pair that is not two hexadecimal digits, and a last character
    left alone is dropped. *)
Fixpoint from_hex (s : string) : list byte :=
  match s with
  | String c1 (String c2 rest) =>
      match unhex c1, unhex c2 with
      | Some hi, Some lo => byte_of_Z (16 * hi + lo) :: from_hex rest
      | _, _ => []
      end
  | _ => []
  end.

Definition hexdigit (n : Z) : ascii :=
  if n <? 10 then ascii_of_N (Z.to_N (48 + n))
  else ascii_of_N (Z.to_N (87 + n)).

(** buf.toString("hex") and digest("hex"): two lowercase digits a byte. *)
Fixpoint to_hex (bs : list byte) : string :=
  match bs with
  | [] => EmptyString
  | b :: rest =>
      String (hexdigit (Z_of_byte b / 16))
        (String (hexdigit (Z_of_byte b mod 16)) (to_hex rest))
  end.

(** The characters [to_hex] writes: 0-9 and a-f. *)
Definition lower_hex_digit (c : ascii) : bool :=
  let n := Z.of_N (N_of_ascii c) in
  ((48 <=? n) && (n <=? 57)) || ((97 <=? n) && (n <=? 102)).

Fixpoint lower_hex (s : string) : bool :=
  match s with
  | EmptyString => true
  | String c rest => lower_hex_digit c && lower_hex rest
  end.

(** The unsigned integer a hexadecimal string denotes, most significant
    digit first; [None] when a character is not a hexadecimal digit. *)
Fixpoint parse_hex_acc (acc : Z) (s : string) : option Z :=
  match s with
  | EmptyString => Some acc
  | String c rest =>
      match unhex c with
      | Some d => parse_hex_acc (16 * acc + d) rest
      | None => None
      end
  end.

Definition parse_hex (s : string) : option Z := parse_hex_acc 0 s.

End Hex.

(** ** SHA-256 (crypto.createHash("sha256")), FIPS 180-4 *)

Module SHA256.

Definition mask32 : Z := 0xffffffff.
Definition add32 (x y : Z) : Z := Z.land (x + y) mask32.
Definition rotr (n x : Z) : Z :=
  Z.lor (Z.shiftr x n) (Z.land (Z.shiftl x (32 - n)) mask32).
Definition xor3 (x y z : Z) : Z := Z.lxor (Z.lxor x y) z.

Definition Ch (x y z : Z) : Z :=
  Z.lxor (Z.land x y) (Z.land (Z.lxor x mask32) z).
Definition Maj (x y z : Z) : Z :=
  xor3 (Z.land x y) (Z.land x z) (Z.land y z).
Definition Sum0 (x : Z) : Z := xor3 (rotr 2 x) (rotr 13 x) (rotr 22 x).
Definition Sum1 (x : Z) : Z := xor3 (rotr 6 x) (rotr 11 x) (rotr 25 x).
Definition sig0 (x : Z) : Z := xor3 (rotr 7 x) (rotr 18 x) (Z.shiftr x 3).
Definition sig1 (x : Z) : Z := xor3 (rotr 17 x) (rotr 19 x) (Z.shiftr x 10).

(** Big-endian 32-bit words of a byte sequence (a tail shorter than four
    bytes is dropped; padded messages have none). *)
Fixpoint words_of_bytes (bs : list byte) : list Z :=
  match bs with
  | b3 :: b2 :: b1 :: b0 :: rest =>
      (((Hex.Z_of_byte b3 * 256 + Hex.Z_of_byte b2) * 256
        + Hex.Z_of_byte b1) * 256 + Hex.Z_of_byte b0)
      :: words_of_bytes rest
  | _ => []
  end.

Definition bytes_of_word (x : Z) : list byte :=
  [ Hex.byte_of_Z (Z.shiftr x 24); Hex.byte_of_Z (Z.shiftr x 16);
    Hex.byte_of_Z (Z.shiftr x 8); Hex.byte_of_Z x ].

(** The sixty-four round constants and the initial hash value, written as
    the hexadecimal text of FIPS 180-4. *)
Definition K256 : list Z :=
  words_of_bytes (Hex.from_hex
    ("428a2f9871374491b5c0fbcfe9b5dba53956c25b59f111f1923f82a4ab1c5ed5" ++
     "d807aa9812835b01243185be550c7dc372be5d7480deb1fe9bdc06a7c19bf174" ++
     "e49b69c1efbe47860fc19dc6240ca1cc2de92c6f4a7484aa5cb0a9dc76f988da" ++
     "983e5152a831c66db00327c8bf597fc7c6e00bf3d5a7914706ca635114292967" ++
     "27b70a852e1b21384d2c6dfc53380d13650a7354766a0abb81c2c92e92722c85" ++
     "a2bfe8a1a81a664bc24b8b70c76c51a3d192e819d6990624f40e3585106aa070" ++
     "19a4c1161e376c082748774c34b0bcb5391c0cb34ed8aa4a5b9cca4f682e6ff3" ++
     "748f82ee78a5636f84c878148cc7020890befffaa4506cebbef9a3f7c67178f2")%string).

Record regs := Regs { ra : Z; rb : Z; rc : Z; rd : Z;
                      re : Z; rf : Z; rg : Z; rh : Z }.

Definition H256 : regs :=
  match words_of_bytes (Hex.from_hex
    "6a09e667bb67ae853c6ef372a54ff53a510e527f9b05688c1f83d9ab5be0cd19") with
  | [a; b; c; d; e; f; g; h] => Regs a b c d e f g h
  | _ => Regs 0 0 0 0 0 0 0 0
  end.

Definition round (k w : Z) (s : regs) : regs :=
  let t1 := add32 (add32 (add32 (rh s) (Sum1 (re s)))
                         (add32 (Ch (re s) (rf s) (rg s)) k)) w in
  let t2 := add32 (Sum0 (ra s)) (Maj (ra s) (rb s) (rc s)) in
  Regs (add32 t1 t2) (ra s) (rb s) (rc s)
       (add32 (rd s) t1) (re s) (rf s) (rg s).

(** The message schedule is kept as a window of sixteen words: its head
    is W_t, and W_(t+16) is appended after each round. *)
Definition schedule_next (w : list Z) : Z :=
  add32 (add32 (sig1 (nth 14 w 0)) (nth 9 w 0))
        (add32 (sig0 (nth 1 w 0)) (nth 0 w 0)).

Fixpoint rounds (ks w : list Z) (s : regs) : regs :=
  match ks with
  | [] => s
  | k :: ks' =>
      rounds ks' (tl w ++ [schedule_next w]) (round k (hd 0 w) s)
  end.

Definition compress (s : regs) (block : list Z) : regs :=
  let t := rounds K256 block s in
  Regs (add32 (ra s) (ra t)) (add32 (rb s) (rb t))
       (add32 (rc s) (rc t)) (add32 (rd s) (rd t))
       (add32 (re s) (re t)) (add32 (rf s) (rf t))
       (add32 (rg s) (rg t)) (add32 (rh s) (rh t)).

Fixpoint hash_blocks (n : nat) (ws : list Z) (s : regs) : regs :=
  match n with
  | O => s
  | S n' => hash_blocks n' (skipn 16 ws) (compress s (firstn 16 ws))
  end.

(** Padding: a one bit, zero bits up to 56 modulo 64 bytes, and the length
    of the message in bits as a 64-bit big-endian integer. *)
Definition pad (msg : list byte) : list byte :=
  let len := Z.of_nat (length msg) in
  let bits := 8 * len in
  msg ++ [x80] ++ repeat x00 (Z.to_nat ((55 - len) mod 64))
      ++ bytes_of_word (Z.shiftr bits 32) ++ bytes_of_word bits.

Definition digest_of (s : regs) : list byte :=
  bytes_of_word (ra s) ++ bytes_of_word (rb s) ++ bytes_of_word (rc s)
  ++ bytes_of_word (rd s) ++ bytes_of_word (re s) ++ bytes_of_word (rf s)
  ++ bytes_of_word (rg s) ++ bytes_of_word (rh s).

Definition sha256 (msg : list byte) : list byte :=
  let ws := words_of_bytes (pad msg) in
  digest_of (hash_blocks (length ws / 16) ws H256).

End SHA256.


(** ** JavaScript values the script computes with *)

(** A number: an integer-valued double, an infinity, or NaN.  (Every number
    the script handles is an integer.) *)
Inductive JsNumber : Type :=
| NaN
| PosInfinity
| NegInfinity
| Num (z : Z).

(** The outcome of a call: a value, or an exception named by its error
    class. *)
Inductive completion (A : Type) : Type :=
| Normal (a : A)
| Throw (error : string).
Arguments Normal {A} a.
Arguments Throw {A} error.

Definition TypeError : string := "TypeError".
(** "Maximum call stack size exceeded". *)
Definition RangeError : string := "RangeError".

Module Js.

(** Number.MAX_SAFE_INTEGER: up to it in magnitude every integer is a
    double of its own, told apart from its neighbours. *)
Definition MAX_SAFE_INTEGER : Z := 2 ^ 53 - 1.

(** Number.prototype.toString() of a safe integer: its decimal digits, after
    a minus sign when negative.  Past the safe integers a double prints the
    fewest digits that read back as the same double, and from 10^21 an
    exponent; neither is modelled, and what is proved of the digits of a
    number that may be that large says so. *)
Definition Number_toString (z : Z) : string :=
  NilZero.string_of_int (Z.to_int z).

Definition neg (x : JsNumber) : JsNumber :=
  match x with
  | NaN => NaN
  | PosInfinity => NegInfinity
  | NegInfinity => PosInfinity
  | Num a => Num (- a)
  end.

(** A property that holds a number, or [undefined], read as a number. *)
Definition ToNumber_opt (v : option Z) : JsNumber :=
  match v with
  | Some z => Num z
  | None => NaN
  end.

(** Number::lessThan: [None] is the undefined result of a comparison
    with NaN. *)
Definition lessThan (x y : JsNumber) : option bool :=
  match x, y with
  | NaN, _ | _, NaN => None
  | PosInfinity, _ => Some false
  | _, NegInfinity => Some false
  | NegInfinity, _ => Some true
  | _, PosInfinity => Some true
  | Num a, Num b => Some (a <? b)
  end.

(** The double nearest to a non-negative integer (ties to even), or
    +Infinity past the largest double. *)
Definition round_double (x : Z) : JsNumber :=
  if x <? 2 ^ 53 then Num x
  else
    let e := Z.log2 x - 52 in
    let q := Z.shiftr x e in
    let r := x - q * 2 ^ e in
    let half := 2 ^ (e - 1) in
    let q' := if (half <? r) || ((r =? half) && Z.odd q) then q + 1 else q in
    let v := q' * 2 ^ e in
    if v <? 2 ^ 1024 then Num v else PosInfinity.

(** The double nearest to an integer of either sign. *)
Definition round_integer (x : Z) : JsNumber :=
  if 0 <=? x then round_double x else neg (round_double (- x)).

(** [x + y] and [x - y] on numbers: the exact sum of two integer-valued
    doubles is an integer, and the result is the double nearest to it. *)
Definition add (x y : JsNumber) : JsNumber :=
  match x, y with
  | NaN, _ | _, NaN => NaN
  | PosInfinity, NegInfinity | NegInfinity, PosInfinity => NaN
  | PosInfinity, _ | _, PosInfinity => PosInfinity
  | NegInfinity, _ | _, NegInfinity => NegInfinity
  | Num a, Num b => round_integer (a + b)
  end.

Definition sub (x y : JsNumber) : JsNumber := add x (neg y).

(** The integer a finite number holds. *)
Definition integer_value (x : JsNumber) : option Z :=
  match x with
  | Num z => Some z
  | _ => None
  end.

Definition is_decimal_digit (c : ascii) : bool :=
  let n := Z.of_N (N_of_ascii c) in (48 <=? n) && (n <=? 57).

(** The value of a non-empty run of decimal digits. *)
Fixpoint digits_acc (acc : Z) (s : string) : option Z :=
  match s with
  | EmptyString => Some acc
  | String c rest =>
      if is_decimal_digit c
      then digits_acc (10 * acc + (Z.of_N (N_of_ascii c) - 48)) rest
      else None
  end.

Definition digits (s : string) : option Z :=
  match s with
  | EmptyString => None
  | _ => digits_acc 0 s
  end.

Fixpoint bits_acc (acc : Z) (s : string) : option Z :=
  match s with
  | EmptyString => Some acc
  | String "0" rest => bits_acc (2 * acc) rest
  | String "1" rest => bits_acc (2 * acc + 1) rest
  | String _ _ => None
  end.

(** Splits [s] at its first letter e: the text before it and after it. *)
Fixpoint split_at_e (s : string) : option (string * string) :=
  match s with
  | EmptyString => None
  | String "e" rest => Some (EmptyString, rest)
  | String c rest =>
      match split_at_e rest with
      | Some (m, x) => Some (String c m, x)
      | None => None
      end
  end.

(** StringToNumber on the strings the script applies it to: text over
    the characters 0-9 and a-f, which is what digest("hex") returns.  Over
    that alphabet a string is a numeric literal in four cases only: the
    empty string (0), decimal digits, decimal digits with an exponent
    part (digits, the letter e, digits), and a binary literal (0b and
    binary digits).  Everything else, and every string with a character
    outside the alphabet, is NaN.  The value is rounded to the nearest
    double, ties to even, as V8 does for any number of digits. *)
Definition StringToNumber (s : string) : JsNumber :=
  match s with
  | EmptyString => Num 0
  | String "0" (String "b" (String c rest)) =>
      match bits_acc 0 (String c rest) with
      | Some v => round_double v
      | None => NaN
      end
  | _ =>
      match digits s with
      | Some v => round_double v
      | None =>
          match split_at_e s with
          | Some (m, x) =>
              match digits m, digits x with
              | Some mv, Some xv =>
                  if mv =? 0 then Num 0
                  else if 400 <? xv then PosInfinity
                  else round_double (mv * 10 ^ xv)
              | _, _ => NaN
              end
          | None => NaN
          end
      end
  end.

(** [s > n] for a string [s] and a number [n]: the string is converted
    to a number and the two are compared as numbers; a comparison with
    NaN is false. *)
Definition gt_string_number (s : string) (n : JsNumber) : bool :=
  match lessThan n (StringToNumber s) with
  | Some b => b
  | None => false
  end.

(** [a || b] on an optional string with a string default: the empty
    string is falsy like [undefined]. *)
Definition or_string (a : option string) (b : string) : string :=
  match a with
  | Some EmptyString | None => b
  | Some s => s
  end.

(** [a || b] on an optional number with a number default: 0 is falsy like
    [undefined]. *)
Definition or_number (a : option Z) (b : Z) : Z :=
  match a with
  | Some 0 | None => b
  | Some z => z
  end.

(** [a || b] on an optional object or array: every object is truthy. *)
Definition or_object {A : Type} (a : option A) (b : A) : A :=
  match a with
  | Some x => x
  | None => b
  end.

(** String.prototype.startsWith: [s] begins with the characters of [p]. *)
Fixpoint startsWith (s p : string) {struct p} : bool :=
  match p with
  | EmptyString => true
  | String a p' =>
      match s with
      | EmptyString => false
      | String b s' => Ascii.eqb a b && startsWith s' p'
      end
  end.

(** Array.prototype.includes on an array of strings. *)
Definition includes (l : list string) (s : string) : bool :=
  existsb (String.eqb s) l.

End Js.

(** crypto's Hash object: [update] collects the data, [digest] hashes it. *)
Module Crypto.

Record Hash := { pending : list byte }.

Definition createHash_sha256 : Hash := {| pending := [] |}.

Definition update (h : Hash) (data : list byte) : Hash :=
  {| pending := pending h ++ data |}.

(** update(s) for a string: its bytes. *)
Definition update_string (h : Hash) (s : string) : Hash :=
  update h (map byte_of_ascii (list_ascii_of_string s)).

Definition digest (h : Hash) : list byte := SHA256.sha256 (pending h).

Definition digest_hex (h : Hash) : string := Hex.to_hex (digest h).

End Crypto.

Definition Buffer_concat (bufs : list (list byte)) : list byte := concat bufs.

(** ** Data model *)

(** The previous output an input spends. *)
Record Prevout := {
  po_txid : option string;
  po_scriptpubkey_type : option string;
  po_scriptpubkey_address : option string;
  po_value : option Z
}.

Record Input := { prevout : option Prevout }.

Record Output := {
  scriptpubkey : option string;
  scriptpubkey_asm : option string;
  scriptpubkey_type : option string;
  scriptpubkey_address : option string;
  value : option Z
}.

Record Transaction := {
  version : option Z;
  locktime : option Z;
  vin : option (list Input);
  vout : option (list Output)
}.

(** [version], [timestamp] and [nonce] are integers far below 10^21, the
    range in which [toString] writes plain decimal digits. *)
Record BlockHeader := {
  bh_version : Z;
  bh_prevBlockHash : string;
  bh_merkleRoot : string;
  bh_timestamp : Z;
  bh_bits : string;
  bh_nonce : Z
}.

(** The object literal [{}]. *)
Definition empty_object : Prevout :=
  {| po_txid := None; po_scriptpubkey_type := None;
     po_scriptpubkey_address := None; po_value := None |}.

(** ** validateTransaction *)

Definition valid_types : list string := ["v0_p2wpkh"; "v1_p2tr"]%string.

(** The loop over [vin]: [false] is the [return false] of the body, [true]
    the normal end of the loop. *)
Fixpoint validate_inputs (vin : list Input) : bool :=
  match vin with
  | [] => true
  | input :: rest =>
      let prevout := Js.or_object (prevout input) empty_object in
      let scriptpubkey_type := Js.or_string (po_scriptpubkey_type prevout) "" in
      let scriptpubkey_address :=
        Js.or_string (po_scriptpubkey_address prevout) "" in
      let value := Js.or_number (po_value prevout) 0 in
      if negb (Js.includes valid_types scriptpubkey_type) then false
      else if negb (Js.startsWith scriptpubkey_address "bc1") then false
      else if value <=? 0 then false
      else validate_inputs rest
  end.

Fixpoint validate_outputs (vout : list Output) : bool :=
  match vout with
  | [] => true
  | output :: rest =>
      let scriptpubkey_type := Js.or_string (scriptpubkey_type output) "" in
      let scriptpubkey_address :=
        Js.or_string (scriptpubkey_address output) "" in
      let value := Js.or_number (value output) 0 in
      if negb (Js.includes valid_types scriptpubkey_type) then false
      else if negb (Js.startsWith scriptpubkey_address "bc1") then false
      else if value <=? 0 then false
      else validate_outputs rest
  end.

(** On records of the data model no statement of the body throws, so the
    [catch] branch is never taken. *)
Definition validateTransaction (transaction : Transaction) : bool :=
  let vin := Js.or_object (vin transaction) [] in
  let vout := Js.or_object (vout transaction) [] in
  if validate_inputs vin then validate_outputs vout else false.

(** [validTransactions]: the transactions that pass, pushed in the order they
    are visited. *)
Definition validTransactions (transactions : list Transaction)
  : list Transaction :=
  fold_left
    (fun valid transaction =>
       if validateTransaction transaction then valid ++ [transaction]
       else valid)
    transactions [].

(** ** The fee loop *)

(** [transaction.vin.forEach(input => totalFees += input.prevout.value)].
    Reading [value] of a missing [prevout] throws; a missing [value] is
    [undefined] and turns the sum into NaN. *)
Fixpoint add_inputs (totalFees : JsNumber) (vin : list Input)
  : completion JsNumber :=
  match vin with
  | [] => Normal totalFees
  | input :: rest =>
      match prevout input with
      | None => Throw TypeError
      | Some p => add_inputs (Js.add totalFees (Js.ToNumber_opt (po_value p))) rest
      end
  end.

(** [transaction.vout.forEach(output => totalFees -= output.value)]. *)
Fixpoint sub_outputs (totalFees : JsNumber) (vout : list Output)
  : JsNumber :=
  match vout with
  | [] => totalFees
  | output :: rest =>
      sub_outputs (Js.sub totalFees (Js.ToNumber_opt (value output))) rest
  end.

(** The outer [forEach], started from the running total [totalFees].
    Calling [forEach] on a missing [vin] or [vout] throws. *)
Fixpoint fee_loop (totalFees : JsNumber) (validTransactions : list Transaction)
  : completion JsNumber :=
  match validTransactions with
  | [] => Normal totalFees
  | transaction :: rest =>
      match vin transaction with
      | None => Throw TypeError
      | Some inputs =>
          match add_inputs totalFees inputs with
          | Throw e => Throw e
          | Normal afterInputs =>
              match vout transaction with
              | None => Throw TypeError
              | Some outputs => fee_loop (sub_outputs afterInputs outputs) rest
              end
          end
      end
  end.

(** [let totalFees = 0] and the loop. *)
Definition totalFees (validTransactions : list Transaction)
  : completion JsNumber :=
  fee_loop (Num 0) validTransactions.

(** ** The coinbase transaction *)

(** [totalFees] is the finite total of the fee loop.  [2500000 + totalFees]
    is an addition of doubles; the sum of 2500000 and a finite double is
    finite, so [value] holds a number. *)
Definition coinbaseTransaction (totalFees : Z) : Transaction :=
  {| version := Some 1;
     locktime := Some 0;
     vin := Some
       [ {| prevout := Some
              {| po_txid := Some
                   "0000000000000000000000000000000000000000000000000000000000000000"%string;
                 po_scriptpubkey_type := None;
                 po_scriptpubkey_address := None;
                 po_value :=
                   Js.integer_value
                     (Js.add (Num 2500000) (Num totalFees)) |} |} ];
     vout := Some
       [ {| scriptpubkey :=
              Some "76a9146085312a9c500ff9cc35b571b0a1e5efb7fb9f1688ac"%string;
            scriptpubkey_asm :=
              Some "OP_DUP OP_HASH160 OP_PUSHBYTES_20 6085312a9c500ff9cc35b571b0a1e5efb7fb9f16 OP_EQUALVERIFY OP_CHECKSIG"%string;
            scriptpubkey_type := Some "p2pkh"%string;
            scriptpubkey_address :=
              Some "19oMRmCWMYuhnP5W61ABrjjxHc6RphZh11"%string;
            value := Some 0 |} ] |}.

(** ** The Merkle root *)

(** One pair of the level loop: the two hashes are decoded from hex, joined
    and hashed once. *)
Definition combine (hash1 hash2 : string) : string :=
  let combinedHash := Crypto.createHash_sha256 in
  let combinedHash :=
    Crypto.update combinedHash
      (Buffer_concat [Hex.from_hex hash1; Hex.from_hex hash2]) in
  Crypto.digest_hex combinedHash.

(** The [for] loop of [merkleRoot]: [i] advances by two, [hash1] is
    [hashes[i]] and [hash2] is [hashes[i + 1] || hash1], so a missing (or
    empty) second hash is replaced by the first. *)
Fixpoint newHashes (hashes : list string) : list string :=
  match hashes with
  | [] => []
  | [hash1] => [combine hash1 (Js.or_string None hash1)]
  | hash1 :: next :: rest =>
      combine hash1 (Js.or_string (Some next) hash1) :: newHashes rest
  end.

(** The recursive function [merkleRoot].  [depth] is the number of calls the
    call stack still has room for: a call made when none is left throws a
    RangeError. *)
Fixpoint merkleRoot (depth : nat) (hashes : list string) : completion string :=
  match depth with
  | O => Throw RangeError
  | S depth' =>
      match hashes with
      | [hash] => Normal hash
      | _ => merkleRoot depth' (newHashes hashes)
      end
  end.

Section Serialised.

(** JSON.stringify on a transaction. *)
Variable JSON_stringify : Transaction -> string.

Definition leafHash (transaction : Transaction) : string :=
  let txHash := Crypto.createHash_sha256 in
  let txHash := Crypto.update_string txHash (JSON_stringify transaction) in
  Crypto.digest_hex txHash.

Definition getMerkleRoot (depth : nat) (transactions : list Transaction)
  : completion string :=
  let hashes := map leafHash transactions in
  merkleRoot depth hashes.

Definition getTransactionString (transaction : Transaction) : string :=
  JSON_stringify transaction.

End Serialised.

(** ** The block header, its hash and the mining loop *)

Definition getBlockHash (blockHeader : BlockHeader) : string :=
  let blockHeaderBuffer :=
    Buffer_concat
      [ Hex.from_hex (Js.Number_toString (bh_version blockHeader));
        Hex.from_hex (bh_prevBlockHash blockHeader);
        Hex.from_hex (bh_merkleRoot blockHeader);
        Hex.from_hex (Js.Number_toString (bh_timestamp blockHeader));
        Hex.from_hex (bh_bits blockHeader);
        Hex.from_hex (Js.Number_toString (bh_nonce blockHeader)) ] in
  let blockHash := Crypto.createHash_sha256 in
  let blockHash := Crypto.update blockHash blockHeaderBuffer in
  Crypto.digest_hex
    (Crypto.update Crypto.createHash_sha256 (Crypto.digest blockHash)).

(** [blockHeaderBuffer], the bytes [getBlockHash] hashes. *)
Definition blockHeaderBuffer (blockHeader : BlockHeader) : list byte :=
  Buffer_concat
    [ Hex.from_hex (Js.Number_toString (bh_version blockHeader));
      Hex.from_hex (bh_prevBlockHash blockHeader);
      Hex.from_hex (bh_merkleRoot blockHeader);
      Hex.from_hex (Js.Number_toString (bh_timestamp blockHeader));
      Hex.from_hex (bh_bits blockHeader);
      Hex.from_hex (Js.Number_toString (bh_nonce blockHeader)) ].

Definition zero_hash : string :=
  "0000000000000000000000000000000000000000000000000000000000000000".

Definition difficulty_bits : string :=
  "0000ffff00000000000000000000000000000000000000000000000000000000".

Section Header.

Variable JSON_stringify : Transaction -> string.

(** The object literal [blockHeader]; [now] is
    [Math.floor(Date.now() / 1000)]. *)
Definition blockHeader (depth : nat) (validTransactions : list Transaction)
    (coinbaseTransaction : Transaction) (now : Z) : completion BlockHeader :=
  match getMerkleRoot JSON_stringify depth
          (validTransactions ++ [coinbaseTransaction]) with
  | Throw e => Throw e
  | Normal root =>
      Normal {| bh_version := 1;
                bh_prevBlockHash := zero_hash;
                bh_merkleRoot := root;
                bh_timestamp := now;
                bh_bits := difficulty_bits;
                bh_nonce := 0 |}
  end.

End Header.

(** The numeric literal of the loop condition, sixty-five hexadecimal
    digits, as the double it denotes. *)
Definition target_literal : string :=
  "0000ffff000000000000000000000000000000000000000000000000000000000".

Definition target : JsNumber :=
  match Hex.parse_hex target_literal with
  | Some v => Js.round_double v
  | None => NaN
  end.

Definition with_nonce (blockHeader : BlockHeader) (n : Z) : BlockHeader :=
  {| bh_version := bh_version blockHeader;
     bh_prevBlockHash := bh_prevBlockHash blockHeader;
     bh_merkleRoot := bh_merkleRoot blockHeader;
     bh_timestamp := bh_timestamp blockHeader;
     bh_bits := bh_bits blockHeader;
     bh_nonce := n |}.

(** The [do ... while] loop.  Each turn hashes the header, increments the
    nonce and tests [blockHash > target]; [fuel] bounds the number of turns,
    and the result is the header and the hash the loop ends with. *)
Fixpoint mine (fuel : nat) (blockHeader : BlockHeader)
  : option (BlockHeader * string) :=
  match fuel with
  | O => None
  | S fuel' =>
      let blockHash := getBlockHash blockHeader in
      let blockHeader := with_nonce blockHeader (bh_nonce blockHeader + 1) in
      if Js.gt_string_number blockHash target
      then mine fuel' blockHeader
      else Some (blockHeader, blockHash)
  end.

(** ** The report *)

Definition newline : string := String "010"%char EmptyString.

Definition getBlockHeaderString (blockHeader : BlockHeader) : string :=
  Js.Number_toString (bh_version blockHeader) +:+ " " +:+
  bh_prevBlockHash blockHeader +:+ " " +:+
  bh_merkleRoot blockHeader +:+ " " +:+
  Js.Number_toString (bh_timestamp blockHeader) +:+ " " +:+
  bh_bits blockHeader +:+ " " +:+
  Js.Number_toString (bh_nonce blockHeader).

(** The files of the working directory are a map from names to contents. *)

Definition writeFileSync (file data : string) (fs : gmap string string)
  : gmap string string :=
  <[ file := data ]> fs.

Definition appendFileSync (file data : string) (fs : gmap string string)
  : gmap string string :=
  <[ file := default EmptyString (fs !! file) +:+ data ]> fs.

Definition outputFile : string := "output.txt".

Section Report.

Variable JSON_stringify : Transaction -> string.

(** The three writes that end the script. *)
Definition write_output (blockHeader : BlockHeader)
    (coinbaseTransaction : Transaction)
    (validTransactions : list Transaction)
    (fs : gmap string string) : gmap string string :=
  let fs :=
    writeFileSync outputFile
      (getBlockHeaderString blockHeader +:+ newline) fs in
  let fs :=
    appendFileSync outputFile
      (getTransactionString JSON_stringify coinbaseTransaction +:+ newline)
      fs in
  fold_left
    (fun fs transaction =>
       appendFileSync outputFile
         (getTransactionString JSON_stringify transaction +:+ newline) fs)
    validTransactions fs.

End Report.



(** ** Properties the specification states, in its own words *)

(** The three checks of the specification on one input or output: the type
    is one of the two accepted tags, the address starts with bc1, the value
    is present and positive. *)
Definition passes_checks (type address : option string) (v : option Z)
  : Prop :=
  (type = Some "v0_p2wpkh"%string \/ type = Some "v1_p2tr"%string)
  /\ (exists rest, address = Some ("bc1" +:+ rest))
  /\ (exists z, v = Some z /\ 0 < z).

Definition input_passes (input : Input) : Prop :=
  exists p, prevout input = Some p
    /\ passes_checks (po_scriptpubkey_type p) (po_scriptpubkey_address p)
         (po_value p).

Definition output_passes (output : Output) : Prop :=
  passes_checks (scriptpubkey_type output) (scriptpubkey_address output)
    (value output).

(** A record with the shape of the data model: both sequences present. *)
Definition has_sequences (t : Transaction) : Prop :=
  is_Some (vin t) /\ is_Some (vout t).

(** A transaction of the validated sequence. *)
Definition validated (t : Transaction) : Prop :=
  has_sequences t /\ validateTransaction t = true.

Definition sum_Z (l : list Z) : Z := fold_right Z.add 0 l.

(** Every [input.prevout.value] of a sequence of transactions, in order (an
    absent value counts 0), and every [output.value]. *)
Definition input_values (txs : list Transaction) : list Z :=
  flat_map
    (fun t =>
       map (fun i => default 0 (prevout i ≫= po_value))
           (default [] (vin t)))
    txs.

Definition output_values (txs : list Transaction) : list Z :=
  flat_map (fun t => map (fun o => default 0 (value o)) (default [] (vout t)))
    txs.

(** Sum of the input values minus sum of the output values. *)
Definition accountant (txs : list Transaction) : Z :=
  sum_Z (input_values txs) - sum_Z (output_values txs).

(** The base-ten digits of a non-negative integer, most significant first:
    a number below ten is its own digit, any other ends in its remainder by
    ten after the digits of its quotient by ten.  [fuel] bounds the number
    of digits. *)
Fixpoint decimal_digits_upto (fuel : nat) (n : Z) : list Z :=
  match fuel with
  | O => []
  | S fuel' =>
      if n <? 10 then [n]
      else decimal_digits_upto fuel' (n / 10) ++ [n mod 10]
  end.

Definition decimal_digits (n : Z) : list Z :=
  decimal_digits_upto (S (Z.to_nat (Z.log2 n))) n.

(** Digits read two at a time as hexadecimal digits, a byte for each pair;
    a last digit left alone is dropped. *)
Fixpoint digit_pairs (ds : list Z) : list byte :=
  match ds with
  | hi :: lo :: rest => Hex.byte_of_Z (16 * hi + lo) :: digit_pairs rest
  | _ => []
  end.

(** The encoding of a number field: its base-ten text, hex-decoded. *)
Definition decimal_then_hex (n : Z) : list byte :=
  digit_pairs (decimal_digits n).

(** Header hash as the specification words it: the six encodings joined in
    order, hashed, the digest hashed again, rendered in hex. *)
Definition headerHash (h : BlockHeader) : string :=
  Hex.to_hex
    (SHA256.sha256
       (SHA256.sha256
          (decimal_then_hex (bh_version h)
           ++ Hex.from_hex (bh_prevBlockHash h)
           ++ Hex.from_hex (bh_merkleRoot h)
           ++ decimal_then_hex (bh_timestamp h)
           ++ Hex.from_hex (bh_bits h)
           ++ decimal_then_hex (bh_nonce h)))).


(** The comparison the specification asks of the mining loop: the hash read
    as an unsigned integer from its hex digits, against the integer the
    target literal denotes. *)
Definition target_value : Z := default 0 (Hex.parse_hex target_literal).

Definition exceeds_target (hash : string) : bool :=
  match Hex.parse_hex hash with
  | Some v => target_value <? v
  | None => false
  end.

(** The mining loop with that comparison as its condition. *)
Fixpoint mine_by_integer (fuel : nat) (blockHeader : BlockHeader)
  : option (BlockHeader * string) :=
  match fuel with
  | O => None
  | S fuel' =>
      let blockHash := getBlockHash blockHeader in
      let blockHeader := with_nonce blockHeader (bh_nonce blockHeader + 1) in
      if exceeds_target blockHash
      then mine_by_integer fuel' blockHeader
      else Some (blockHeader, blockHash)
  end.

(** The report as the specification lays it out: the header line, the
    coinbase line, one line per validated transaction, each line ended by a
    newline. *)
Definition report (JSON_stringify : Transaction -> string)
    (blockHeader : BlockHeader) (coinbase : Transaction)
    (valid : list Transaction) : string :=
  fold_right (fun line rest => line +:+ newline +:+ rest) EmptyString
    (getBlockHeaderString blockHeader
     :: JSON_stringify coinbase :: map JSON_stringify valid).

(** The six fields of a header as text, in the declared order. *)
Definition header_fields (h : BlockHeader) : list string :=
  [ Js.Number_toString (bh_version h); bh_prevBlockHash h; bh_merkleRoot h;
    Js.Number_toString (bh_timestamp h); bh_bits h;
    Js.Number_toString (bh_nonce h) ].

(** The parts of a line, with [sep] between two neighbours. *)
Fixpoint join (sep : string) (parts : list string) : string :=
  match parts with
  | [] => EmptyString
  | [part] => part
  | part :: rest => part +:+ sep +:+ join sep rest
  end.

(** ** Concrete inputs *)

Definition bytes_of_string (s : string) : list byte :=
  map byte_of_ascii (list_ascii_of_string s).

(** Replaces each apostrophe of [s] by a double quote. *)
Fixpoint quoted (s : string) : string :=
  match s with
  | EmptyString => EmptyString
  | String c rest =>
      String (if Ascii.eqb c "'"%char then "034"%char else c) (quoted rest)
  end.

(** JSON.stringify of [coinbaseTransaction 0], the coinbase of a run with no
    valid transaction. *)
Definition coinbase_json : string :=
  quoted ("{'version':1,'locktime':0,'vin':[{'prevout':{'txid':'" +:+ zero_hash
    +:+ "','value':2500000}}],'vout':[{'scriptpubkey':'76a9146085312a9c500ff9cc35b571b0a1e5efb7fb9f1688ac',"
    +:+ "'scriptpubkey_asm':'OP_DUP OP_HASH160 OP_PUSHBYTES_20 6085312a9c500ff9cc35b571b0a1e5efb7fb9f16 OP_EQUALVERIFY OP_CHECKSIG',"
    +:+ "'scriptpubkey_type':'p2pkh','scriptpubkey_address':'19oMRmCWMYuhnP5W61ABrjjxHc6RphZh11','value':0}]}").

(** The header the script builds when the pool holds no valid transaction
    and the clock reads 1713571200 seconds. *)
Definition header_of_empty_pool : BlockHeader :=
  {| bh_version := 1;
     bh_prevBlockHash := zero_hash;
     bh_merkleRoot :=
       "3ee6a4b81ce172fe34483c6d5b3d4268e01e3ac885d3aa67066a68a8747dc97f";
     bh_timestamp := 1713571200;
     bh_bits := difficulty_bits;
     bh_nonce := 0 |}.

Definition leaf_a : string := Hex.to_hex (SHA256.sha256 (bytes_of_string "a")).
Definition leaf_b : string := Hex.to_hex (SHA256.sha256 (bytes_of_string "b")).
Definition leaf_c : string := Hex.to_hex (SHA256.sha256 (bytes_of_string "c")).

(** A payment of 5000 from one bc1 address, paying 4000 to another. *)
Definition paying_input (v : Z) : Input :=
  {| prevout := Some
       {| po_txid := None;
          po_scriptpubkey_type := Some "v0_p2wpkh"%string;
          po_scriptpubkey_address := Some "bc1qsender"%string;
          po_value := Some v |} |}.

Definition paid_output (v : Z) : Output :=
  {| scriptpubkey := None; scriptpubkey_asm := None;
     scriptpubkey_type := Some "v1_p2tr"%string;
     scriptpubkey_address := Some "bc1precipient"%string;
     value := Some v |}.

Definition payment (v_in v_out : Z) : Transaction :=
  {| version := Some 2; locktime := Some 0;
     vin := Some [paying_input v_in];
     vout := Some [paid_output v_out] |}.

(** A record with no [vin] and no [vout] property. *)
Definition bare_record : Transaction :=
  {| version := Some 2; locktime := Some 0; vin := None; vout := None |}.

(** ** Vocabulary of the further properties *)

(** The text of a sequence of decimal digits. *)
Definition digits_text (ds : list Z) : string :=
  fold_right (fun d text => String (Hex.hexdigit d) text) EmptyString ds.

Definition decimal_digit (d : Z) : Prop := 0 <= d <= 9.

(** The letters of a hex digest that occur in no numeric literal: a, c, d
    and f (b occurs in 0b, e in an exponent). *)
Definition never_numeric (c : ascii) : bool :=
  Ascii.eqb c "a" || Ascii.eqb c "c" || Ascii.eqb c "d" || Ascii.eqb c "f".

Fixpoint has_letter (s : string) : bool :=
  match s with
  | EmptyString => false
  | String c rest => never_numeric c || has_letter rest
  end.

Fixpoint no_space (s : string) : bool :=
  match s with
  | EmptyString => true
  | String c rest => negb (Ascii.eqb c " ") && no_space rest
  end.

(** The number of line ends in a text. *)
Fixpoint count_newlines (s : string) : nat :=
  match s with
  | EmptyString => O
  | String c rest =>
      ((if Ascii.eqb c "010" then 1 else 0) + count_newlines rest)%nat
  end.

(** Decimal digit [d] put in front of a little-endian decimal number. *)
Definition push_digit (d : Z) (l : Decimal.uint) : Decimal.uint :=
  match d with
  | 0 => Decimal.D0 l
  | 1 => Decimal.D1 l
  | 2 => Decimal.D2 l
  | 3 => Decimal.D3 l
  | 4 => Decimal.D4 l
  | 5 => Decimal.D5 l
  | 6 => Decimal.D6 l
  | 7 => Decimal.D7 l
  | 8 => Decimal.D8 l
  | _ => Decimal.D9 l
  end.

(** * Properties *)

(** ** Hexadecimal text and digests *)

Lemma from_hex_two_digits (b : byte) (rest : string) :
  Hex.from_hex
    (String (Hex.hexdigit (Hex.Z_of_byte b / 16))
       (String (Hex.hexdigit (Hex.Z_of_byte b mod 16)) rest))
  = b :: Hex.from_hex rest.
Proof. destruct b; reflexivity. Qed.

(** Decoding the hex text of a buffer gives the buffer back. *)
Lemma from_hex_to_hex (bs : list byte) : Hex.from_hex (Hex.to_hex bs) = bs.
Proof.
  induction bs as [|b bs IH]; [reflexivity|].
  cbn [Hex.to_hex]. rewrite from_hex_two_digits. now rewrite IH.
Qed.

Lemma to_hex_length (bs : list byte) :
  String.length (Hex.to_hex bs) = (2 * length bs)%nat.
Proof.
  induction bs as [|b bs IH]; [reflexivity|].
  cbn [Hex.to_hex String.length length]. rewrite IH. lia.
Qed.

(** A SHA-256 digest is thirty-two bytes. *)
Lemma sha256_length (msg : list byte) : length (SHA256.sha256 msg) = 32%nat.
Proof. reflexivity. Qed.

Lemma digest_hex_length (h : Crypto.Hash) :
  String.length (Crypto.digest_hex h) = 64%nat.
Proof.
  unfold Crypto.digest_hex, Crypto.digest.
  now rewrite to_hex_length, sha256_length.
Qed.

Lemma to_hex_sha256_not_empty (msg : list byte) :
  Hex.to_hex (SHA256.sha256 msg) <> EmptyString.
Proof.
  intros H. apply (f_equal String.length) in H.
  rewrite to_hex_length, sha256_length in H. discriminate H.
Qed.

(** The pair hash, on the raw bytes: the two decodings joined and hashed
    once. *)
Lemma combine_bytes (hash1 hash2 : string) :
  combine hash1 hash2
  = Hex.to_hex (SHA256.sha256 (Hex.from_hex hash1 ++ Hex.from_hex hash2)).
Proof.
  unfold combine, Crypto.digest_hex, Crypto.digest, Crypto.update,
    Buffer_concat.
  cbn [Crypto.pending concat app]. now rewrite app_nil_r.
Qed.

Lemma combine_digests (d1 d2 : list byte) :
  combine (Hex.to_hex d1) (Hex.to_hex d2)
  = Hex.to_hex (SHA256.sha256 (d1 ++ d2)).
Proof. now rewrite combine_bytes, !from_hex_to_hex. Qed.

(** ** The Merkle reduction *)

(** Induction over a list two elements at a time, the way the level loop
    walks it. *)
Lemma list_pairs_ind {A : Type} (P : list A -> Prop) :
  P [] -> (forall x, P [x]) -> (forall x y l, P l -> P (x :: y :: l)) ->
  forall l, P l.
Proof.
  intros Hnil Hone Hstep l.
  enough (P l /\ forall x, P (x :: l)) as [H _] by exact H.
  induction l as [|y l [IHl IHcons]]; split; auto.
Qed.

Lemma newHashes_length_div2 (hashes : list string) :
  length (newHashes hashes) = Nat.div2 (S (length hashes)).
Proof.
  induction hashes as [| x | x y l IH] using list_pairs_ind;
    [reflexivity | reflexivity |].
  cbn [newHashes length Nat.div2]. now rewrite IH.
Qed.

Lemma newHashes_length (hashes : list string) :
  length (newHashes hashes) = ((length hashes + 1) / 2)%nat.
Proof.
  rewrite newHashes_length_div2, Nat.div2_div. f_equal. lia.
Qed.

Lemma newHashes_shorter (hashes : list string) :
  (2 <= length hashes)%nat ->
  (0 < length (newHashes hashes) < length hashes)%nat.
Proof.
  intros Hlen. rewrite newHashes_length.
  pose proof (Nat.div_mod_eq (length hashes + 1) 2) as Hdiv.
  pose proof (Nat.mod_upper_bound (length hashes + 1) 2) as Hmod.
  lia.
Qed.

(** On the empty list the recursion never meets its base case: whatever
    room the stack has is used up. *)
Lemma merkleRoot_nil (depth : nat) : merkleRoot depth [] = Throw RangeError.
Proof. induction depth as [|depth IH]; [reflexivity | exact IH]. Qed.

Lemma merkleRoot_returns (n : nat) :
  forall hashes : list string,
    hashes <> [] -> (length hashes <= n)%nat ->
    exists root, forall depth,
      (n <= depth)%nat -> merkleRoot depth hashes = Normal root.
Proof.
  induction n as [|n IH]; intros hashes Hne Hlen.
  - destruct hashes; [congruence | cbn in Hlen; lia].
  - destruct hashes as [|h1 [|h2 rest]]; [congruence | |].
    + exists h1. intros [|depth] Hd; [lia | reflexivity].
    + pose proof (newHashes_shorter (h1 :: h2 :: rest)) as Hshort.
      cbn [length] in Hshort, Hlen.
      destruct (IH (newHashes (h1 :: h2 :: rest))) as [root Hroot].
      * intros Hnil. rewrite Hnil in Hshort. cbn in Hshort. lia.
      * lia.
      * exists root. intros [|depth] Hd; [lia|].
        cbn [merkleRoot]. apply Hroot. lia.
Qed.

(** C10. For every non-empty list of hashes the reduction terminates: a
    level of n hashes is followed by one of ceil(n/2) hashes, fewer than n
    as soon as n is at least 2, and with room for as many calls as there are
    hashes the recursion returns one root, the same for any larger stack.
    On the empty list it never returns. *)
Theorem merkleRoot_terminates (hashes : list string) (Hne : hashes <> []) :
  length (newHashes hashes) = ((length hashes + 1) / 2)%nat
  /\ ((2 <= length hashes)%nat ->
      (length (newHashes hashes) < length hashes)%nat)
  /\ (exists root, forall depth,
        (length hashes <= depth)%nat -> merkleRoot depth hashes = Normal root)
  /\ (forall depth root, merkleRoot depth [] <> Normal root).
Proof.
  split; [apply newHashes_length|].
  split; [intros H; apply newHashes_shorter, H|].
  split; [apply (merkleRoot_returns (length hashes)); [exact Hne | lia]|].
  intros depth root. rewrite merkleRoot_nil. discriminate.
Qed.

Lemma merkleRoot_terminates_witness :
  [leaf_a; leaf_b; leaf_c] <> []
  /\ (exists root, forall depth,
        (3 <= depth)%nat ->
        merkleRoot depth [leaf_a; leaf_b; leaf_c] = Normal root).
Proof.
  split; [discriminate|].
  apply (merkleRoot_terminates [leaf_a; leaf_b; leaf_c]). discriminate.
Defined.

(** C2, as the script has it.  Given no transaction, [getMerkleRoot] neither
    returns a hash nor raises an error of its own: the recursion runs until
    the call stack is exhausted, whatever its size, and ends in the
    engine's RangeError.  The script itself never makes that call: the list
    it passes ends with the coinbase transaction, and for it a root comes
    back. *)
Theorem getMerkleRoot_of_no_transaction
    (JSON_stringify : Transaction -> string) (depth : nat) :
  getMerkleRoot JSON_stringify depth [] = Throw RangeError
  /\ (forall validTransactions coinbase now,
        exists header,
          blockHeader JSON_stringify (S (length validTransactions) + depth)
            validTransactions coinbase now = Normal header).
Proof.
  split; [apply merkleRoot_nil|].
  intros valid coinbase now. unfold blockHeader, getMerkleRoot.
  destruct (merkleRoot_returns (S (length valid))
              (map (leafHash JSON_stringify) (valid ++ [coinbase])))
    as [root Hroot].
  - rewrite map_app. destruct (map _ valid); discriminate.
  - rewrite length_map, length_app. cbn. lia.
  - rewrite Hroot by lia. eexists. reflexivity.
Qed.

(** C2, as stated, fails on the empty list: no stack size makes the call
    end in an EmptyTransactionSet error. *)
Lemma merkleRoot_of_nothing_is_no_defined_error :
  merkleRoot 100 [] = Throw RangeError
  /\ ~ (exists depth,
          merkleRoot depth [] = Throw "EmptyTransactionSet"%string).
Proof.
  split; [apply merkleRoot_nil|].
  intros [depth H]. rewrite merkleRoot_nil in H. discriminate H.
Qed.

Lemma or_string_not_empty (s other : string) :
  s <> EmptyString -> Js.or_string (Some s) other = s.
Proof. destruct s; [congruence | reflexivity]. Qed.

Lemma combine_not_empty (hash1 hash2 : string) :
  combine hash1 hash2 <> EmptyString.
Proof. rewrite combine_bytes. apply to_hex_sha256_not_empty. Qed.

Lemma leafHash_not_empty (JSON_stringify : Transaction -> string)
    (t : Transaction) :
  leafHash JSON_stringify t <> EmptyString.
Proof. apply to_hex_sha256_not_empty. Qed.

Lemma leafHash_decoded_length (JSON_stringify : Transaction -> string)
    (t : Transaction) :
  length (Hex.from_hex (leafHash JSON_stringify t)) = 32%nat.
Proof.
  unfold leafHash, Crypto.digest_hex, Crypto.digest.
  now rewrite from_hex_to_hex, sha256_length.
Qed.

(** Three hashes, the second not empty: two levels, then the base case. *)
Lemma merkleRoot_three (a b c : string) (depth : nat) :
  b <> EmptyString ->
  merkleRoot (3 + depth) [a; b; c]
  = Normal (combine (combine a b) (combine c c)).
Proof.
  intros Hb. cbn [merkleRoot newHashes Nat.add].
  rewrite (or_string_not_empty b a Hb).
  rewrite (or_string_not_empty (combine c _) _ (combine_not_empty _ _)).
  reflexivity.
Qed.

(** The hash of a leaf is the hex text of the digest of the transaction's
    JSON text. *)
Lemma leafHash_digest (JSON_stringify : Transaction -> string)
    (t : Transaction) :
  leafHash JSON_stringify t
  = Hex.to_hex (SHA256.sha256 (bytes_of_string (JSON_stringify t))).
Proof.
  unfold leafHash, Crypto.digest_hex, Crypto.digest, Crypto.update_string,
    Crypto.update, Crypto.createHash_sha256, bytes_of_string.
  cbn [Crypto.pending app]. reflexivity.
Qed.

(** C5.  For three transactions the last leaf is paired with itself, and the
    root is three hashes deep, each hash applied once: the three leaf
    digests, the digest of the first two joined and the digest of the third
    joined to itself, and the digest of those two joined.  With [a], [b] and
    [c] the leaf hashes, the root is the pair hash of the pair hash of [a]
    and [b] and the pair hash of [c] and [c]; it is the root of the four
    transactions obtained by repeating the third. *)
Theorem getMerkleRoot_of_three
    (JSON_stringify : Transaction -> string) (t1 t2 t3 : Transaction)
    (depth : nat) :
  let a := leafHash JSON_stringify t1 in
  let b := leafHash JSON_stringify t2 in
  let c := leafHash JSON_stringify t3 in
  let da := SHA256.sha256 (bytes_of_string (JSON_stringify t1)) in
  let db := SHA256.sha256 (bytes_of_string (JSON_stringify t2)) in
  let dc := SHA256.sha256 (bytes_of_string (JSON_stringify t3)) in
  getMerkleRoot JSON_stringify (3 + depth) [t1; t2; t3]
  = Normal (combine (combine a b) (combine c c))
  /\ combine (combine a b) (combine c c)
     = Hex.to_hex
         (SHA256.sha256
            (SHA256.sha256 (Hex.from_hex a ++ Hex.from_hex b)
             ++ SHA256.sha256 (Hex.from_hex c ++ Hex.from_hex c)))
  /\ getMerkleRoot JSON_stringify (3 + depth) [t1; t2; t3]
     = Normal
         (Hex.to_hex
            (SHA256.sha256
               (SHA256.sha256 (da ++ db) ++ SHA256.sha256 (dc ++ dc))))
  /\ Hex.from_hex a = da /\ Hex.from_hex b = db /\ Hex.from_hex c = dc
  /\ length (Hex.from_hex a) = 32%nat
  /\ length (Hex.from_hex b) = 32%nat
  /\ length (Hex.from_hex c) = 32%nat
  /\ getMerkleRoot JSON_stringify (3 + depth) [t1; t2; t3]
     = getMerkleRoot JSON_stringify (3 + depth) [t1; t2; t3; t3].
Proof.
  cbv zeta.
  assert (getMerkleRoot JSON_stringify (3 + depth) [t1; t2; t3]
          = Normal
              (combine
                 (combine (leafHash JSON_stringify t1)
                    (leafHash JSON_stringify t2))
                 (combine (leafHash JSON_stringify t3)
                    (leafHash JSON_stringify t3)))) as Hroot.
  { unfold getMerkleRoot. cbn [map].
    apply merkleRoot_three, leafHash_not_empty. }
  assert (forall t,
             Hex.from_hex (leafHash JSON_stringify t)
             = SHA256.sha256 (bytes_of_string (JSON_stringify t))) as Hleaf.
  { intros t. rewrite leafHash_digest. apply from_hex_to_hex. }
  split; [exact Hroot|]. split.
  { rewrite (combine_bytes (leafHash _ t1)), (combine_bytes (leafHash _ t3)).
    apply combine_digests. }
  split.
  { rewrite Hroot. f_equal.
    rewrite (combine_bytes (leafHash _ t1)), (combine_bytes (leafHash _ t3)).
    rewrite combine_digests. now rewrite !Hleaf. }
  split; [apply Hleaf|]. split; [apply Hleaf|]. split; [apply Hleaf|].
  split; [apply leafHash_decoded_length|].
  split; [apply leafHash_decoded_length|].
  split; [apply leafHash_decoded_length|].
  rewrite Hroot. unfold getMerkleRoot. cbn [map].
  cbn [Nat.add merkleRoot newHashes].
  rewrite !(or_string_not_empty _ _ (leafHash_not_empty _ _)).
  rewrite !(or_string_not_empty _ _ (combine_not_empty _ _)).
  reflexivity.
Qed.

(** ** Validation *)

Lemma includes_valid_types (s : string) :
  Js.includes valid_types s = true
  <-> s = "v0_p2wpkh"%string \/ s = "v1_p2tr"%string.
Proof.
  unfold Js.includes, valid_types. cbn [existsb].
  rewrite !orb_true_iff, !String.eqb_eq. intuition discriminate.
Qed.

Lemma startsWith_bc1 (s : string) :
  Js.startsWith s "bc1" = true <-> exists rest, s = ("bc1" +:+ rest)%string.
Proof.
  split.
  - intros H.
    destruct s as [|c1 [|c2 [|c3 rest]]]; cbn [Js.startsWith] in H;
      rewrite ?andb_false_r in H; try discriminate H.
    rewrite !andb_true_iff, !Ascii.eqb_eq in H.
    destruct H as (<- & <- & <- & _). now exists rest.
  - intros [rest ->]. reflexivity.
Qed.

Lemma or_string_eq_Some (o : option string) (s : string) :
  s <> EmptyString -> Js.or_string o "" = s <-> o = Some s.
Proof.
  intros Hs. destruct o as [[|c r]|]; cbn; split; intros H;
    try congruence; now inversion H.
Qed.

Lemma or_number_positive (v : option Z) :
  (Js.or_number v 0 <=? 0) = false <-> exists z, v = Some z /\ 0 < z.
Proof.
  rewrite Z.leb_gt. destruct v as [[|p|p]|]; cbn; split;
    try lia; try (intros (z & Hz & Hpos); inversion Hz; subst; lia).
  - intros _. exists (Z.pos p). split; [reflexivity | lia].
Qed.

(** The three tests of a loop body, followed by what the loop does next. *)
Lemma three_checks (type address : option string) (v : option Z) (next : bool) :
  (if negb (Js.includes valid_types (Js.or_string type ""))
   then false
   else if negb (Js.startsWith (Js.or_string address "") "bc1")
        then false
        else if Js.or_number v 0 <=? 0 then false else next) = true
  <-> passes_checks type address v /\ next = true.
Proof.
  unfold passes_checks.
  rewrite <- or_number_positive.
  destruct (Js.includes valid_types (Js.or_string type "")) eqn:Hty;
    cbn [negb].
  - apply includes_valid_types in Hty.
    destruct (Js.startsWith (Js.or_string address "") "bc1") eqn:Haddr;
      cbn [negb].
    + apply startsWith_bc1 in Haddr. destruct Haddr as [rest Haddr].
      apply or_string_eq_Some in Haddr; [|discriminate].
      destruct (Js.or_number v 0 <=? 0); split; try tauto; try intuition congruence.
      * intros H. split; [|exact H]. split; [|split; [now exists rest | reflexivity]].
        destruct Hty as [Hty | Hty];
          apply or_string_eq_Some in Hty; try discriminate; auto.
    + split; [discriminate|]. intros [(_ & [rest Hrest] & _) _].
      subst address. cbn in Haddr. discriminate Haddr.
  - split; [discriminate|]. intros [(Hty' & _) _].
    assert (Js.includes valid_types (Js.or_string type "") = true) as Habs.
    { apply includes_valid_types. destruct Hty' as [-> | ->]; cbn; auto. }
    congruence.
Qed.

Lemma validate_inputs_true (inputs : list Input) :
  validate_inputs inputs = true <-> Forall input_passes inputs.
Proof.
  induction inputs as [|input rest IH].
  - split; [constructor | reflexivity].
  - cbn [validate_inputs]. cbv zeta. rewrite three_checks, IH.
    unfold Js.or_object. split.
    + intros [Hin Hrest]. constructor; [|exact Hrest].
      destruct (prevout input) as [p|] eqn:Hp.
      * exists p. split; [exact Hp | exact Hin].
      * destruct Hin as ([H | H] & _); discriminate H.
    + intros H. inversion H as [|? ? (p & Hp & Hpass) Hrest]; subst.
      rewrite Hp. split; assumption.
Qed.

Lemma validate_outputs_true (outputs : list Output) :
  validate_outputs outputs = true <-> Forall output_passes outputs.
Proof.
  induction outputs as [|output rest IH].
  - split; [constructor | reflexivity].
  - cbn [validate_outputs]. cbv zeta. rewrite three_checks, IH.
    split.
    + intros [Hout Hrest]. constructor; assumption.
    + intros H. inversion H; subst. split; assumption.
Qed.

Lemma not_Forall_Exists {A : Type} (P : A -> Prop) (check : list A -> bool)
    (l : list A) :
  (forall l', check l' = true <-> Forall P l') ->
  check l = false <-> Exists (fun x => ~ P x) l.
Proof.
  intros Hcheck. rewrite <- not_true_iff_false, Hcheck.
  induction l as [|x l IH].
  - split; [intros H; destruct H; constructor | intros H; inversion H].
  - split.
    + intros Hnot.
      destruct (check [x]) eqn:Hx.
      * apply Hcheck in Hx. inversion Hx; subst.
        apply Exists_cons_tl, IH. intros Hl. apply Hnot. now constructor.
      * apply Exists_cons_hd. intros HP.
        apply not_true_iff_false in Hx. apply Hx, Hcheck.
        constructor; [exact HP | constructor].
    + intros Hex Hall. inversion Hall; subst.
      inversion Hex; subst; [contradiction|]. now apply IH.
Qed.

Lemma validateTransaction_unfold (t : Transaction) :
  validateTransaction t
  = validate_inputs (default [] (vin t))
    && validate_outputs (default [] (vout t)).
Proof.
  unfold validateTransaction.
  destruct (vin t), (vout t); cbn [Js.or_object default from_option id];
    now destruct (validate_inputs _).
Qed.

Lemma validateTransaction_true (t : Transaction) :
  validateTransaction t = true
  <-> Forall input_passes (default [] (vin t))
      /\ Forall output_passes (default [] (vout t)).
Proof.
  rewrite validateTransaction_unfold, andb_true_iff.
  now rewrite validate_inputs_true, validate_outputs_true.
Qed.

(** C4. [validateTransaction] answers true exactly when every input and
    every output passes the three checks (accepted type, bc1 address,
    present and positive value), and false exactly when some input or some
    output fails one; a missing or empty [vin] or [vout] passes its side. *)
Theorem validateTransaction_spec (t : Transaction) :
  let inputs := default [] (vin t) in
  let outputs := default [] (vout t) in
  (validateTransaction t = true
   <-> Forall input_passes inputs /\ Forall output_passes outputs)
  /\ (validateTransaction t = false
      <-> Exists (fun i => ~ input_passes i) inputs
          \/ Exists (fun o => ~ output_passes o) outputs)
  /\ (inputs = [] -> validateTransaction t = validate_outputs outputs)
  /\ (outputs = [] -> validateTransaction t = validate_inputs inputs).
Proof.
  cbv zeta. rewrite validateTransaction_unfold.
  set (inputs := default [] (vin t)). set (outputs := default [] (vout t)).
  pose proof (validate_inputs_true inputs) as Hin.
  pose proof (validate_outputs_true outputs) as Hout.
  pose proof (not_Forall_Exists input_passes validate_inputs inputs
                validate_inputs_true) as Hin'.
  pose proof (not_Forall_Exists output_passes validate_outputs outputs
                validate_outputs_true) as Hout'.
  destruct (validate_inputs inputs) eqn:Ein; cbn [andb].
  - split; [|split; [|split]].
    + rewrite Hout. intuition.
    + rewrite Hout'. split; [tauto|]. intros [H|H]; [|exact H].
      apply Hin' in H. discriminate H.
    + reflexivity.
    + intros ->. reflexivity.
  - split; [|split; [|split]].
    + split; [discriminate|]. intros [H _]. apply Hin in H. discriminate H.
    + split; [|reflexivity]. intros _. left. now apply Hin'.
    + intros E. rewrite E in Ein. discriminate Ein.
    + intros ->. reflexivity.
Qed.

(** ** Fees *)

Lemma sum_Z_app (xs ys : list Z) : sum_Z (xs ++ ys) = sum_Z xs + sum_Z ys.
Proof.
  unfold sum_Z. induction xs as [|x xs IH]; cbn [app fold_right]; lia.
Qed.

Lemma input_values_app (A B : list Transaction) :
  input_values (A ++ B) = input_values A ++ input_values B.
Proof. unfold input_values. apply flat_map_app. Qed.

Lemma output_values_app (A B : list Transaction) :
  output_values (A ++ B) = output_values A ++ output_values B.
Proof. unfold output_values. apply flat_map_app. Qed.

(** The specification's total is additive over concatenation. *)
Lemma accountant_app (A B : list Transaction) :
  accountant (A ++ B) = accountant A + accountant B.
Proof.
  unfold accountant.
  rewrite input_values_app, output_values_app, !sum_Z_app. lia.
Qed.

(** Up to 2^53 in magnitude every integer is a double, so a sum that stays
    in that range is exact. *)
Lemma round_double_exact (x : Z) :
  0 <= x <= 2 ^ 53 -> Js.round_double x = Num x.
Proof.
  intros Hx. destruct (Z.eq_dec x (2 ^ 53)) as [-> | Hne].
  - vm_compute. reflexivity.
  - unfold Js.round_double.
    destruct (x <? 2 ^ 53) eqn:E; [reflexivity|].
    apply Z.ltb_ge in E. lia.
Qed.

Lemma round_integer_exact (x : Z) :
  - 2 ^ 53 <= x <= 2 ^ 53 -> Js.round_integer x = Num x.
Proof.
  intros Hx. unfold Js.round_integer. destruct (0 <=? x) eqn:E.
  - apply Z.leb_le in E. apply round_double_exact. lia.
  - apply Z.leb_gt in E. rewrite round_double_exact by lia.
    cbn [Js.neg]. f_equal. lia.
Qed.

Lemma add_exact (a b : Z) :
  - 2 ^ 53 <= a + b <= 2 ^ 53 -> Js.add (Num a) (Num b) = Num (a + b).
Proof. intros H. cbn [Js.add]. now apply round_integer_exact. Qed.

Lemma sub_exact (a b : Z) :
  - 2 ^ 53 <= a - b <= 2 ^ 53 -> Js.sub (Num a) (Num b) = Num (a - b).
Proof.
  intros H. unfold Js.sub. cbn [Js.neg Js.add].
  replace (a + - b) with (a - b) by lia. now apply round_integer_exact.
Qed.




Lemma inputs_sum_nonneg (inputs : list Input) :
  Forall input_passes inputs ->
  0 <= sum_Z (map (fun i => default 0 (prevout i ≫= po_value)) inputs).
Proof.
  induction 1 as [|input rest (p & Hp & _ & _ & z & Hz & Hpos) _ IH].
  - unfold sum_Z. cbn. lia.
  - cbn [map]. rewrite Hp. cbn [mbind option_bind]. rewrite Hz.
    unfold sum_Z in *. cbn [fold_right default from_option id]. lia.
Qed.

Lemma outputs_sum_nonneg (outputs : list Output) :
  Forall output_passes outputs ->
  0 <= sum_Z (map (fun o => default 0 (value o)) outputs).
Proof.
  induction 1 as [|output rest (_ & _ & z & Hz & Hpos) _ IH].
  - unfold sum_Z. cbn. lia.
  - cbn [map]. rewrite Hz.
    unfold sum_Z in *. cbn [fold_right default from_option id]. lia.
Qed.

(** Passing inputs only raise the running total, so it stays exact as long
    as its first and last values are within 2^53. *)
Lemma add_inputs_passing (inputs : list Input) :
  Forall input_passes inputs ->
  forall acc : Z,
    - 2 ^ 53 <= acc ->
    acc + sum_Z (map (fun i => default 0 (prevout i ≫= po_value)) inputs)
    <= 2 ^ 53 ->
    add_inputs (Num acc) inputs
    = Normal
        (Num (acc + sum_Z (map (fun i => default 0 (prevout i ≫= po_value))
                             inputs))).
Proof.
  induction 1 as [|input rest (p & Hp & _ & _ & z & Hz & Hpos) Hrest IH];
    intros acc Hlow Hhigh.
  - unfold sum_Z. cbn. apply (f_equal (fun z => Normal (Num z))); lia.
  - pose proof (inputs_sum_nonneg rest Hrest) as Hnonneg.
    revert Hhigh. cbn [add_inputs map]. rewrite Hp.
    cbn [mbind option_bind]. rewrite Hz.
    unfold sum_Z in *. cbn [fold_right Js.ToNumber_opt default from_option id].
    intros Hhigh. rewrite add_exact by lia. rewrite IH by lia.
    apply (f_equal (fun z => Normal (Num z))); lia.
Qed.

Lemma sub_outputs_passing (outputs : list Output) :
  Forall output_passes outputs ->
  forall acc : Z,
    acc <= 2 ^ 53 ->
    - 2 ^ 53 <= acc - sum_Z (map (fun o => default 0 (value o)) outputs) ->
    sub_outputs (Num acc) outputs
    = Num (acc - sum_Z (map (fun o => default 0 (value o)) outputs)).
Proof.
  induction 1 as [|output rest (_ & _ & z & Hz & Hpos) Hrest IH];
    intros acc Hhigh Hlow.
  - unfold sum_Z. cbn. apply (f_equal Num); lia.
  - pose proof (outputs_sum_nonneg rest Hrest) as Hnonneg.
    revert Hlow. cbn [sub_outputs map]. rewrite Hz.
    unfold sum_Z in *. cbn [fold_right Js.ToNumber_opt default from_option id].
    intros Hlow. rewrite sub_exact by lia. rewrite IH by lia.
    apply (f_equal Num); lia.
Qed.

Lemma validated_sequences (t : Transaction) :
  validated t ->
  exists inputs outputs,
    vin t = Some inputs /\ vout t = Some outputs
    /\ Forall input_passes inputs /\ Forall output_passes outputs.
Proof.
  intros [[[inputs Hin] [outputs Hout]] Hvalid].
  exists inputs, outputs.
  apply validateTransaction_true in Hvalid.
  rewrite Hin, Hout in Hvalid. cbn in Hvalid. tauto.
Qed.

(** The transactions the script keeps are validated ones, as soon as the
    records it read have their two sequences. *)
Lemma validTransactions_validated (transactions : list Transaction) :
  Forall has_sequences transactions ->
  Forall validated (validTransactions transactions).
Proof.
  intros Hshape.
  enough (forall valid,
             Forall validated valid ->
             Forall validated
               (fold_left
                  (fun valid transaction =>
                     if validateTransaction transaction
                     then valid ++ [transaction] else valid)
                  transactions valid))
    as H by (apply H; constructor).
  induction Hshape as [|t rest Ht _ IH]; intros valid Hvalid; [exact Hvalid|].
  cbn [fold_left]. apply IH.
  destruct (validateTransaction t) eqn:Hpass; [|exact Hvalid].
  apply Forall_app. split; [exact Hvalid|].
  constructor; [|constructor]. split; assumption.
Qed.

Lemma values_cons (t : Transaction) (rest : list Transaction)
    (inputs : list Input) (outputs : list Output) :
  vin t = Some inputs -> vout t = Some outputs ->
  sum_Z (input_values (t :: rest))
  = sum_Z (map (fun i => default 0 (prevout i ≫= po_value)) inputs)
    + sum_Z (input_values rest)
  /\ sum_Z (output_values (t :: rest))
     = sum_Z (map (fun o => default 0 (value o)) outputs)
       + sum_Z (output_values rest).
Proof.
  intros Hin Hout. unfold input_values, output_values. cbn [flat_map].
  rewrite Hin, Hout. cbn [default from_option id].
  now rewrite !sum_Z_app.
Qed.

Lemma values_nonneg (txs : list Transaction) :
  Forall validated txs ->
  0 <= sum_Z (input_values txs) /\ 0 <= sum_Z (output_values txs).
Proof.
  induction 1 as [|t rest Ht _ IH]; [unfold sum_Z; cbn; lia|].
  destruct (validated_sequences t Ht)
    as (inputs & outputs & Hin & Hout & Hins & Houts).
  destruct (values_cons t rest inputs outputs Hin Hout) as [-> ->].
  pose proof (inputs_sum_nonneg inputs Hins).
  pose proof (outputs_sum_nonneg outputs Houts). lia.
Qed.

(** The loop over a validated sequence adds the specification's total to
    the running sum, as long as no running sum can leave the range in which
    every integer is a double: the running sum lies between its start less
    all the output values and its start plus all the input values. *)
Lemma fee_loop_validated (txs : list Transaction) :
  Forall validated txs ->
  forall acc : Z,
    - 2 ^ 53 <= acc - sum_Z (output_values txs) ->
    acc + sum_Z (input_values txs) <= 2 ^ 53 ->
    fee_loop (Num acc) txs = Normal (Num (acc + accountant txs)).
Proof.
  induction 1 as [|t rest Ht Hrest IH]; intros acc Hlow Hhigh.
  - cbn. f_equal. f_equal. unfold accountant. cbn. lia.
  - destruct (validated_sequences t Ht)
      as (inputs & outputs & Hin & Hout & Hins & Houts).
    destruct (values_cons t rest inputs outputs Hin Hout) as [Hi Ho].
    destruct (values_nonneg rest Hrest) as [Hri Hro].
    pose proof (inputs_sum_nonneg inputs Hins) as Hti.
    pose proof (outputs_sum_nonneg outputs Houts) as Hto.
    rewrite Hi in Hhigh. rewrite Ho in Hlow.
    cbn [fee_loop]. rewrite Hin.
    rewrite (add_inputs_passing inputs Hins) by lia. rewrite Hout.
    rewrite (sub_outputs_passing outputs Houts) by lia.
    rewrite IH by lia.
    apply (f_equal (fun z => Normal (Num z))).
    unfold accountant. rewrite Hi, Ho. lia.
Qed.

(** C6, within the range of exact sums.  Over validated transactions whose
    input values sum to at most 2^53, and whose output values do, the fee
    loop computes the sum of all input values minus the sum of all output
    values, and it is linear: the empty sequence gives 0, and the
    concatenation of two sequences gives the sum of their totals. *)
Theorem totalFees_linear (A B : list Transaction)
    (HA : Forall validated A) (HB : Forall validated B)
    (Hinputs : sum_Z (input_values (A ++ B)) <= 2 ^ 53)
    (Houtputs : sum_Z (output_values (A ++ B)) <= 2 ^ 53) :
  totalFees [] = Normal (Num 0)
  /\ totalFees A = Normal (Num (accountant A))
  /\ totalFees B = Normal (Num (accountant B))
  /\ totalFees (A ++ B) = Normal (Num (accountant A + accountant B))
  /\ totalFees (A ++ B)
     = Normal (Num (sum_Z (input_values (A ++ B))
                    - sum_Z (output_values (A ++ B)))).
Proof.
  destruct (values_nonneg A HA) as [HAi HAo].
  destruct (values_nonneg B HB) as [HBi HBo].
  rewrite input_values_app, sum_Z_app in Hinputs.
  rewrite output_values_app, sum_Z_app in Houtputs.
  unfold totalFees. split; [reflexivity|].
  assert (Forall validated (A ++ B)) as HAB
      by (apply Forall_app; split; assumption).
  rewrite (fee_loop_validated A HA) by lia.
  rewrite (fee_loop_validated B HB) by lia.
  rewrite (fee_loop_validated (A ++ B) HAB)
    by (rewrite ?input_values_app, ?output_values_app, !sum_Z_app; lia).
  rewrite accountant_app. repeat split.
  apply (f_equal (fun z => Normal (Num z))).
  unfold accountant.
  rewrite input_values_app, output_values_app, !sum_Z_app. lia.
Qed.

Lemma payment_validated (v_in v_out : Z) :
  0 < v_in -> 0 < v_out -> validated (payment v_in v_out).
Proof.
  intros Hin Hout. split.
  - split; eexists; reflexivity.
  - apply validateTransaction_true. cbn. split.
    + constructor; [|constructor]. eexists. split; [reflexivity|].
      repeat split; [now left | now exists "qsender"%string |].
      exists v_in. now split.
    + constructor; [|constructor].
      repeat split; [now right | now exists "precipient"%string |].
      exists v_out. now split.
Qed.

Lemma totalFees_linear_witness :
  Forall validated [payment 5000 4000]
  /\ Forall validated [payment 700 650; payment 90 10]
  /\ totalFees ([payment 5000 4000] ++ [payment 700 650; payment 90 10])
     = Normal (Num (accountant [payment 5000 4000]
                    + accountant [payment 700 650; payment 90 10])).
Proof.
  assert (Forall validated [payment 5000 4000]) as HA.
  { repeat constructor; apply payment_validated; lia. }
  assert (Forall validated [payment 700 650; payment 90 10]) as HB.
  { repeat constructor; apply payment_validated; lia. }
  split; [exact HA|]. split; [exact HB|].
  apply (totalFees_linear _ _ HA HB); vm_compute; discriminate.
Defined.

(** C6, as stated, fails.  Past 2^53 the running total is rounded: after a
    payment of 2^53 for 1 and a payment of 2 for 1 the loop holds 2^53 - 1,
    which is neither the inputs less the outputs, 2^53, nor the sum of the
    two totals.  And a record without [vin] passes validation, and the fee
    loop throws on it. *)
Lemma totalFees_not_linear :
  Forall validated [payment (2 ^ 53) 1]
  /\ Forall validated [payment 2 1]
  /\ totalFees [payment (2 ^ 53) 1] = Normal (Num (2 ^ 53 - 1))
  /\ totalFees [payment 2 1] = Normal (Num 1)
  /\ totalFees ([payment (2 ^ 53) 1] ++ [payment 2 1])
     = Normal (Num (2 ^ 53 - 1))
  /\ accountant ([payment (2 ^ 53) 1] ++ [payment 2 1]) = 2 ^ 53
  /\ totalFees ([payment (2 ^ 53) 1] ++ [payment 2 1])
     <> Normal (Num (accountant ([payment (2 ^ 53) 1] ++ [payment 2 1])))
  /\ totalFees ([payment (2 ^ 53) 1] ++ [payment 2 1])
     <> Normal (Num (accountant [payment (2 ^ 53) 1]
                     + accountant [payment 2 1]))
  /\ validateTransaction bare_record = true
  /\ totalFees [bare_record] = Throw TypeError.
Proof.
  split; [repeat constructor; apply payment_validated; lia|].
  split; [repeat constructor; apply payment_validated; lia|].
  repeat split; try (vm_compute; reflexivity); vm_compute; discriminate.
Qed.

(** A record without [vin] passes validation, and the fee loop throws on
    it. *)
Lemma totalFees_of_bare_record :
  validateTransaction bare_record = true
  /\ totalFees [bare_record] = Throw TypeError.
Proof. split; reflexivity. Qed.

(** ** The coinbase transaction *)

(** The sum of 2500000 and a finite double is finite: below 2^1023 in
    magnitude the nearest double is within the doubles. *)
Lemma round_double_finite (x : Z) :
  0 <= x < 2 ^ 1023 -> exists v, Js.round_double x = Num v.
Proof.
  intros Hx. unfold Js.round_double.
  destruct (x <? 2 ^ 53) eqn:E; [now exists x|].
  apply Z.ltb_ge in E.
  assert (0 < x) as Hpos by (assert (0 < 2 ^ 53) by reflexivity; lia).
  pose proof (Z.log2_spec x Hpos) as [Hlo Hhi].
  assert (53 <= Z.log2 x) as Hlog
      by (apply Z.log2_le_pow2; [exact Hpos | exact E]).
  assert (Z.log2 x < 1023) as Hlog'
      by (apply Z.log2_lt_pow2; [exact Hpos | lia]).
  set (e := Z.log2 x - 52) in *. cbv zeta.
  assert (0 < 2 ^ e) as Hpow by (apply Z.pow_pos_nonneg; lia).
  assert (Z.shiftr x e < 2 ^ 53) as Hq.
  { rewrite Z.shiftr_div_pow2 by lia.
    apply Z.div_lt_upper_bound; [exact Hpow|].
    rewrite <- Z.pow_add_r by lia.
    replace (e + 53) with (Z.succ (Z.log2 x)) by lia. exact Hhi. }
  assert (0 <= Z.shiftr x e) as Hq0 by (apply Z.shiftr_nonneg; lia).
  set (q := Z.shiftr x e) in *.
  set (q' := if _ : bool then q + 1 else q).
  assert (0 <= q' <= 2 ^ 53) as Hq'.
  { unfold q'. destruct (_ || _); lia. }
  assert (q' * 2 ^ e < 2 ^ 1024) as Hv.
  { apply Z.le_lt_trans with (2 ^ 53 * 2 ^ e).
    - apply Z.mul_le_mono_nonneg_r; lia.
    - rewrite <- Z.pow_add_r by lia.
      apply Z.pow_lt_mono_r; lia. }
  apply Z.ltb_lt in Hv. rewrite Hv. now eexists.
Qed.

Lemma coinbase_value_finite (fees : Z) :
  - 2 ^ 1022 <= fees <= 2 ^ 1022 ->
  exists v, Js.add (Num 2500000) (Num fees) = Num v.
Proof.
  intros Hfees. cbn [Js.add]. unfold Js.round_integer.
  assert (2500000 + 2 ^ 1022 < 2 ^ 1023) as Hroom by reflexivity.
  destruct (0 <=? 2500000 + fees) eqn:E.
  - apply Z.leb_le in E. apply round_double_finite. lia.
  - apply Z.leb_gt in E.
    destruct (round_double_finite (- (2500000 + fees))) as [v ->]; [lia|].
    now eexists.
Qed.

(** C8, with the addition the script performs.  The coinbase transaction
    has one input, whose previous output has an all-zero txid (thirty-two
    zero bytes), and one output, paying the fixed script with value 0.  The
    value of the previous output is the sum of 2500000 and the fees as
    numbers add: a number whenever the fees are finite, and exactly 2500000
    plus the fees whenever that is at most 2^53 in magnitude.  The fees
    enter unclamped: a negative total lowers the value, below zero past
    -2500000. *)
Theorem coinbaseTransaction_shape (fees : Z) :
  exists p o,
    vin (coinbaseTransaction fees) = Some [ {| prevout := Some p |} ]
    /\ vout (coinbaseTransaction fees) = Some [o]
    /\ po_txid p = Some zero_hash
    /\ Hex.from_hex zero_hash = repeat x00 32
    /\ po_value p = Js.integer_value (Js.add (Num 2500000) (Num fees))
    /\ (- 2 ^ 1022 <= fees <= 2 ^ 1022 -> is_Some (po_value p))
    /\ (- 2 ^ 53 <= 2500000 + fees <= 2 ^ 53 ->
        po_value p = Some (2500000 + fees))
    /\ scriptpubkey o
       = Some "76a9146085312a9c500ff9cc35b571b0a1e5efb7fb9f1688ac"%string
    /\ scriptpubkey_asm o
       = Some "OP_DUP OP_HASH160 OP_PUSHBYTES_20 6085312a9c500ff9cc35b571b0a1e5efb7fb9f16 OP_EQUALVERIFY OP_CHECKSIG"%string
    /\ scriptpubkey_type o = Some "p2pkh"%string
    /\ scriptpubkey_address o
       = Some "19oMRmCWMYuhnP5W61ABrjjxHc6RphZh11"%string
    /\ value o = Some 0
    /\ vin (coinbaseTransaction (-3000000))
       = Some [ {| prevout := Some
                     {| po_txid := Some zero_hash;
                        po_scriptpubkey_type := None;
                        po_scriptpubkey_address := None;
                        po_value := Some (-500000) |} |} ]
    /\ vin (coinbaseTransaction (2 ^ 60))
       = Some [ {| prevout := Some
                     {| po_txid := Some zero_hash;
                        po_scriptpubkey_type := None;
                        po_scriptpubkey_address := None;
                        po_value := Some (2 ^ 60 + 2500096) |} |} ].
Proof.
  eexists. eexists. cbn [coinbaseTransaction vin vout].
  split; [reflexivity|]. split; [reflexivity|].
  cbn [po_txid po_value scriptpubkey scriptpubkey_asm scriptpubkey_type
       scriptpubkey_address value].
  split; [reflexivity|]. split; [reflexivity|]. split; [reflexivity|].
  split.
  { intros Hfees. destruct (coinbase_value_finite fees Hfees) as [v ->].
    now eexists. }
  split.
  { intros Hsum. now rewrite add_exact. }
  repeat split; vm_compute; reflexivity.
Qed.

(** C8, as stated, fails.  For fees of 2^60 the value is 2^60 + 2500096, the
    double nearest to 2500000 + 2^60, and not 2500000 + 2^60 itself. *)
Lemma coinbase_value_is_rounded :
  vin (coinbaseTransaction (2 ^ 60))
  = Some [ {| prevout := Some
                {| po_txid := Some zero_hash;
                   po_scriptpubkey_type := None;
                   po_scriptpubkey_address := None;
                   po_value := Some 1152921504609347072 |} |} ]
  /\ 2500000 + 2 ^ 60 = 1152921504609346976
  /\ exists p,
       vin (coinbaseTransaction (2 ^ 60)) = Some [ {| prevout := Some p |} ]
       /\ po_value p <> Some (2500000 + 2 ^ 60).
Proof.
  split; [vm_compute; reflexivity|]. split; [reflexivity|].
  eexists. split; [reflexivity|]. vm_compute. discriminate.
Qed.

(** ** The header hash *)

(** The text [toString] gives denotes the number it was given, in base
    ten. *)
Lemma Number_toString_denotes (z : Z) :
  option_map Z.of_int (NilZero.int_of_string (Js.Number_toString z)) = Some z.
Proof.
  unfold Js.Number_toString. rewrite NilZero.isi.
  - cbn [option_map]. now rewrite DecimalZ.of_to.
  - destruct z; cbn; try discriminate.
    intros H. injection H as H. now apply DecimalPos.Unsigned.to_uint_nonnil in H.
  - destruct z; cbn; try discriminate.
    intros H. injection H as H. now apply DecimalPos.Unsigned.to_uint_nonnil in H.
Qed.

Lemma to_hex_lower_hex (bs : list byte) : Hex.lower_hex (Hex.to_hex bs) = true.
Proof.
  induction bs as [|b bs IH]; [reflexivity|].
  cbn [Hex.to_hex Hex.lower_hex]. rewrite IH. now destruct b.
Qed.

(** What the mining loop compares is sixty-four characters 0-9, a-f. *)
Lemma getBlockHash_text (h : BlockHeader) :
  String.length (getBlockHash h) = 64%nat
  /\ Hex.lower_hex (getBlockHash h) = true.
Proof.
  split; [apply digest_hex_length | apply to_hex_lower_hex].
Qed.

(** The script's version, 1, is encoded by no byte at all, not by the four
    little-endian bytes 01 00 00 00; a ten digit timestamp by five bytes. *)
Lemma decimal_then_hex_examples :
  decimal_then_hex 1 = []
  /\ decimal_then_hex 1713571200 = [x17; x13; x57; x12; x00].
Proof. split; reflexivity. Qed.

Lemma getBlockHash_nonce_bytes (h : BlockHeader) (n m : Z) :
  Hex.from_hex (Js.Number_toString n) = Hex.from_hex (Js.Number_toString m) ->
  getBlockHash (with_nonce h n) = getBlockHash (with_nonce h m).
Proof.
  intros Hbytes. unfold getBlockHash, with_nonce.
  cbn [bh_version bh_prevBlockHash bh_merkleRoot bh_timestamp bh_bits bh_nonce].
  now rewrite Hbytes.
Qed.

Lemma single_digit_decodes_to_nothing (d : Z) :
  0 <= d <= 9 -> Hex.from_hex (Js.Number_toString d) = [].
Proof.
  intros Hd.
  assert (d = 0 \/ d = 1 \/ d = 2 \/ d = 3 \/ d = 4 \/ d = 5 \/ d = 6
          \/ d = 7 \/ d = 8 \/ d = 9) as Hcases by lia.
  repeat (destruct Hcases as [-> | Hcases]; [reflexivity|]).
  now subst d.
Qed.

(** ** The mining loop *)

Lemma target_number : target = Num (65535 * 2 ^ 228).
Proof. vm_compute. reflexivity. Qed.

(** The literal of the loop has one digit more than [bits]: it denotes
    sixteen times the value of the header field. *)
Lemma target_literal_and_bits :
  exists v, Hex.parse_hex difficulty_bits = Some v
            /\ Hex.parse_hex target_literal = Some (16 * v).
Proof. eexists. split; vm_compute; reflexivity. Qed.

(** With an empty pool and the clock at 1713571200 the script builds
    [header_of_empty_pool]. *)
Lemma header_of_empty_pool_built (JSON_stringify : Transaction -> string)
    (depth : nat) :
  JSON_stringify (coinbaseTransaction 0) = coinbase_json ->
  blockHeader JSON_stringify (S depth) (validTransactions [])
    (coinbaseTransaction 0) 1713571200
  = Normal header_of_empty_pool.
Proof.
  intros Hjson. unfold blockHeader, getMerkleRoot, leafHash.
  cbn [validTransactions fold_left app map merkleRoot]. rewrite Hjson.
  vm_compute. reflexivity.
Qed.

(** A hash that does not read as a number ends the loop at once: the
    comparison with NaN is false. *)
Lemma mine_stops_on_NaN (fuel : nat) (h : BlockHeader) :
  Js.StringToNumber (getBlockHash h) = NaN ->
  mine (S fuel) h = Some (with_nonce h (bh_nonce h + 1), getBlockHash h).
Proof.
  intros Hnan. cbn [mine]. cbv zeta.
  unfold Js.gt_string_number. rewrite Hnan.
  now destruct target.
Qed.

(** C1, on [header_of_empty_pool].  The loop ends after its first turn with
    the hash of nonce 0: the hash text is not a numeric literal, so it
    converts to NaN and [blockHash > target] is false, although the hash read
    as an unsigned integer is far above the target.  With the integer
    comparison the loop would reject that hash and still be searching after
    ten turns. *)
Theorem mine_accepts_hash_above_target :
  let blockHash :=
    "d91f9a2ee163ac428013877060904068146c4c167df4d6914d571fa849327607"%string in
  mine 1 header_of_empty_pool
  = Some (with_nonce header_of_empty_pool 1, blockHash)
  /\ Js.StringToNumber blockHash = NaN
  /\ Js.gt_string_number blockHash target = false
  /\ exceeds_target blockHash = true
  /\ mine_by_integer 10 header_of_empty_pool = None.
Proof. cbv zeta. repeat split; vm_compute; reflexivity. Qed.

(** ** The report *)

Lemma append_cons (x : ascii) (a b : string) :
  String x a +:+ b = String x (a +:+ b).
Proof. reflexivity. Qed.

Lemma append_assoc (a b c : string) : (a +:+ b) +:+ c = a +:+ (b +:+ c).
Proof.
  induction a as [|x a IH]; [reflexivity|].
  now rewrite !append_cons, IH.
Qed.

Lemma append_empty_r (a : string) : a +:+ EmptyString = a.
Proof.
  induction a as [|x a IH]; [reflexivity|].
  now rewrite append_cons, IH.
Qed.

(** The valid transactions are the transactions that pass, in their
    original order. *)
Lemma validTransactions_filter (transactions : list Transaction) :
  validTransactions transactions
  = List.filter validateTransaction transactions.
Proof.
  unfold validTransactions.
  enough (forall valid,
             fold_left
               (fun valid transaction =>
                  if validateTransaction transaction
                  then valid ++ [transaction] else valid)
               transactions valid
             = valid ++ List.filter validateTransaction transactions)
    as H by apply (H []).
  induction transactions as [|t rest IH]; intros valid; cbn [fold_left List.filter].
  - now rewrite app_nil_r.
  - rewrite IH. destruct (validateTransaction t); [|reflexivity].
    now rewrite <- app_assoc.
Qed.

Lemma append_loop (JSON_stringify : Transaction -> string)
    (valid : list Transaction) :
  forall (fs : gmap string string) (written : string),
    fs !! outputFile = Some written ->
    let fs' :=
      fold_left
        (fun fs transaction =>
           appendFileSync outputFile
             (getTransactionString JSON_stringify transaction +:+ newline) fs)
        valid fs in
    fs' !! outputFile
    = Some (written
            +:+ fold_right (fun line rest => line +:+ newline +:+ rest)
                  EmptyString (map JSON_stringify valid))
    /\ delete outputFile fs' = delete outputFile fs.
Proof.
  induction valid as [|t rest IH]; intros fs written Hfs; cbv zeta.
  - cbn [fold_left map fold_right]. now rewrite append_empty_r.
  - cbn [fold_left map fold_right].
    destruct (IH (appendFileSync outputFile
                    (getTransactionString JSON_stringify t +:+ newline) fs)
                 (written +:+ JSON_stringify t +:+ newline))
      as [Hfile Hothers].
    + unfold appendFileSync, getTransactionString.
      rewrite Hfs. cbn [default from_option id]. apply lookup_insert_eq.
    + cbv zeta in Hfile, Hothers. rewrite Hfile, Hothers. split.
      * now rewrite !append_assoc.
      * unfold appendFileSync. apply delete_insert_eq.
Qed.

(** C9. After the three writes the output file holds exactly the report:
    the header line (the six fields in declared order, one space between
    two), the coinbase line, then one line for each transaction that passed
    validation, in their original order, each line being the transaction's
    JSON text; whatever the file held before is gone, and no other file is
    touched. *)
Theorem write_output_report (JSON_stringify : Transaction -> string)
    (blockHeader : BlockHeader) (coinbase : Transaction)
    (transactions : list Transaction) (fs : gmap string string) :
  let valid := validTransactions transactions in
  let fs' := write_output JSON_stringify blockHeader coinbase valid fs in
  fs' !! outputFile
  = Some (getBlockHeaderString blockHeader +:+ newline
          +:+ JSON_stringify coinbase +:+ newline
          +:+ fold_right (fun line rest => line +:+ newline +:+ rest)
                EmptyString (map JSON_stringify valid))
  /\ fs' !! outputFile = Some (report JSON_stringify blockHeader coinbase valid)
  /\ getBlockHeaderString blockHeader = join " " (header_fields blockHeader)
  /\ valid = List.filter validateTransaction transactions
  /\ delete outputFile fs' = delete outputFile fs.
Proof.
  cbv zeta. unfold write_output.
  destruct (append_loop JSON_stringify (validTransactions transactions)
              (appendFileSync outputFile
                 (getTransactionString JSON_stringify coinbase +:+ newline)
                 (writeFileSync outputFile
                    (getBlockHeaderString blockHeader +:+ newline) fs))
              ((getBlockHeaderString blockHeader +:+ newline)
               +:+ JSON_stringify coinbase +:+ newline))
    as [Hfile Hothers].
  { unfold appendFileSync, writeFileSync, getTransactionString.
    rewrite !lookup_insert_eq. reflexivity. }
  cbv zeta in Hfile, Hothers.
  repeat split.
  - rewrite Hfile. f_equal. rewrite !append_assoc. reflexivity.
  - rewrite Hfile. unfold report. cbn [fold_right].
    f_equal. rewrite !append_assoc. reflexivity.
  - apply validTransactions_filter.
  - rewrite Hothers. unfold appendFileSync, writeFileSync.
    now rewrite delete_insert_eq, delete_insert_eq.
Qed.

(** * Further properties of the script *)

(** ** The mining loop, as it runs *)

Lemma with_nonce_with_nonce (h : BlockHeader) (n m : Z) :
  with_nonce (with_nonce h n) m = with_nonce h m.
Proof. reflexivity. Qed.

Lemma with_nonce_same (h : BlockHeader) : with_nonce h (bh_nonce h) = h.
Proof. now destruct h. Qed.

(** One turn of the loop. *)
Lemma mine_turn (fuel : nat) (h : BlockHeader) :
  mine (S fuel) h
  = if Js.gt_string_number (getBlockHash h) target
    then mine fuel (with_nonce h (bh_nonce h + 1))
    else Some (with_nonce h (bh_nonce h + 1), getBlockHash h).
Proof. cbn [mine]. cbv zeta. reflexivity. Qed.

(** What a finished run of the loop went through: [k] rejected hashes, then
    an accepted one, and a header whose nonce is one past the nonce that was
    hashed last. *)
Lemma mine_trace (fuel : nat) :
  forall (h h' : BlockHeader) (hash : string),
    mine fuel h = Some (h', hash) ->
    exists k : nat,
      (k < fuel)%nat
      /\ h' = with_nonce h (bh_nonce h + Z.of_nat k + 1)
      /\ hash = getBlockHash (with_nonce h (bh_nonce h + Z.of_nat k))
      /\ Js.gt_string_number hash target = false
      /\ forall j : nat,
           (j < k)%nat ->
           Js.gt_string_number
             (getBlockHash (with_nonce h (bh_nonce h + Z.of_nat j))) target
           = true.
Proof.
  induction fuel as [|fuel IH]; intros h h' hash Hrun; [discriminate Hrun|].
  rewrite mine_turn in Hrun.
  destruct (Js.gt_string_number (getBlockHash h) target) eqn:Hgt.
  - apply IH in Hrun. destruct Hrun as (k & Hk & Hh' & Hhash & Hstop & Hbefore).
    rewrite with_nonce_with_nonce in Hh', Hhash.
    cbn [with_nonce bh_nonce] in Hh', Hhash.
    exists (S k). split; [lia|].
    replace (bh_nonce h + Z.of_nat (S k)) with (bh_nonce h + 1 + Z.of_nat k)
      by lia.
    split; [exact Hh'|]. split; [exact Hhash|]. split; [exact Hstop|].
    intros [|j] Hj.
    + rewrite Z.add_0_r, with_nonce_same. exact Hgt.
    + specialize (Hbefore j ltac:(lia)).
      rewrite with_nonce_with_nonce in Hbefore.
      cbn [with_nonce bh_nonce] in Hbefore.
      replace (bh_nonce h + Z.of_nat (S j)) with (bh_nonce h + 1 + Z.of_nat j)
        by lia.
      exact Hbefore.
  - injection Hrun as <- <-. exists O. split; [lia|].
    rewrite !Z.add_0_r, with_nonce_same.
    split; [reflexivity|]. split; [reflexivity|]. split; [exact Hgt|].
    intros j Hj. lia.
Qed.




(** ** Hashes that do not read as numbers *)

Lemma never_numeric_cases (c : ascii) :
  never_numeric c = true ->
  c = "a"%char \/ c = "c"%char \/ c = "d"%char \/ c = "f"%char.
Proof.
  unfold never_numeric. rewrite !orb_true_iff, !Ascii.eqb_eq. tauto.
Qed.

Lemma digits_acc_no_letter (s : string) :
  forall acc v, Js.digits_acc acc s = Some v -> has_letter s = false.
Proof.
  induction s as [|c s IH]; intros acc v H; [reflexivity|].
  cbn [Js.digits_acc] in H. cbn [has_letter].
  destruct (Js.is_decimal_digit c) eqn:Hc; [|discriminate H].
  rewrite (IH _ _ H), orb_false_r.
  destruct (never_numeric c) eqn:Hn; [|reflexivity].
  apply never_numeric_cases in Hn.
  destruct Hn as [-> | [-> | [-> | ->]]]; discriminate Hc.
Qed.

Lemma digits_no_letter (s : string) (v : Z) :
  Js.digits s = Some v -> has_letter s = false.
Proof.
  destruct s; [discriminate|]. apply digits_acc_no_letter.
Qed.

Lemma bits_acc_step (c : ascii) (rest : string) (acc : Z) :
  Js.bits_acc acc (String c rest)
  = if Ascii.eqb c "0" then Js.bits_acc (2 * acc) rest
    else if Ascii.eqb c "1" then Js.bits_acc (2 * acc + 1) rest
    else None.
Proof. destruct c as [[] [] [] [] [] [] [] []]; reflexivity. Qed.

Lemma bits_acc_no_letter (s : string) :
  forall acc v, Js.bits_acc acc s = Some v -> has_letter s = false.
Proof.
  induction s as [|c s IH]; intros acc v H; [reflexivity|].
  rewrite bits_acc_step in H. cbn [has_letter].
  destruct (Ascii.eqb_spec c "0") as [-> | _];
    [now rewrite (IH _ _ H)|].
  destruct (Ascii.eqb_spec c "1") as [-> | _];
    [now rewrite (IH _ _ H) | discriminate H].
Qed.

Lemma split_at_e_step (c : ascii) (rest : string) :
  Js.split_at_e (String c rest)
  = if Ascii.eqb c "e" then Some (EmptyString, rest)
    else match Js.split_at_e rest with
         | Some (m, x) => Some (String c m, x)
         | None => None
         end.
Proof. destruct c as [[] [] [] [] [] [] [] []]; reflexivity. Qed.

Lemma split_at_e_letter (s : string) :
  forall m x,
    Js.split_at_e s = Some (m, x) ->
    has_letter s = has_letter m || has_letter x.
Proof.
  induction s as [|c s IH]; intros m x H; [discriminate H|].
  rewrite split_at_e_step in H.
  destruct (Ascii.eqb_spec c "e") as [-> | _].
  - injection H as <- <-. reflexivity.
  - destruct (Js.split_at_e s) as [[m' x']|]; [|discriminate H].
    injection H as <- <-. cbn [has_letter].
    now rewrite (IH m' x' eq_refl), orb_assoc.
Qed.

(** The part of [StringToNumber] that handles everything but the empty
    string and binary literals. *)
Lemma StringToNumber_step (c : ascii) (rest : string) :
  Js.StringToNumber (String c rest)
  = match c, rest with
    | "0"%char, String "b" (String c' rest') =>
        match Js.bits_acc 0 (String c' rest') with
        | Some v => Js.round_double v
        | None => NaN
        end
    | _, _ =>
        match Js.digits (String c rest) with
        | Some v => Js.round_double v
        | None =>
            match Js.split_at_e (String c rest) with
            | Some (m, x) =>
                match Js.digits m, Js.digits x with
                | Some mv, Some xv =>
                    if mv =? 0 then Num 0
                    else if 400 <? xv then PosInfinity
                    else Js.round_double (mv * 10 ^ xv)
                | _, _ => NaN
                end
            | None => NaN
            end
        end
    end.
Proof. reflexivity. Qed.

(** A text with one of the letters a, c, d, f is no numeric literal. *)
Lemma StringToNumber_letter (s : string) :
  has_letter s = true -> Js.StringToNumber s = NaN.
Proof.
  intros Hletter.
  assert (Js.digits s = None) as Hdigits.
  { destruct (Js.digits s) as [v|] eqn:H; [|reflexivity].
    apply digits_no_letter in H. congruence. }
  assert (match Js.split_at_e s with
          | Some (m, x) =>
              match Js.digits m, Js.digits x with
              | Some mv, Some xv =>
                  if mv =? 0 then Num 0
                  else if 400 <? xv then PosInfinity
                  else Js.round_double (mv * 10 ^ xv)
              | _, _ => NaN
              end
          | None => NaN
          end = NaN) as Hexp.
  { destruct (Js.split_at_e s) as [[m x]|] eqn:Hsplit; [|reflexivity].
    apply split_at_e_letter in Hsplit. rewrite Hletter in Hsplit.
    destruct (Js.digits m) as [mv|] eqn:Hm; [|reflexivity].
    destruct (Js.digits x) as [xv|] eqn:Hx; [|reflexivity].
    apply digits_no_letter in Hm, Hx. rewrite Hm, Hx in Hsplit.
    discriminate Hsplit. }
  destruct s as [|c rest]; [discriminate Hletter|].
  rewrite StringToNumber_step.
  assert (forall c' rest',
             rest = String "b" (String c' rest') -> c = "0"%char ->
             Js.bits_acc 0 (String c' rest') = None) as Hbits.
  { intros c' rest' -> ->.
    destruct (Js.bits_acc 0 (String c' rest')) as [v|] eqn:H; [|reflexivity].
    apply bits_acc_no_letter in H. cbn [has_letter] in Hletter, H.
    rewrite H in Hletter. discriminate Hletter. }
  rewrite Hdigits, Hexp.
  destruct c as [[] [] [] [] [] [] [] []]; try reflexivity.
  destruct rest as [|c1 rest1]; [reflexivity|].
  destruct c1 as [[] [] [] [] [] [] [] []]; try reflexivity.
  destruct rest1 as [|c2 rest2]; [reflexivity|].
  now rewrite (Hbits c2 rest2 eq_refl eq_refl).
Qed.

(** X2. A hash with one of the letters a, c, d or f in it ends the loop on
    the turn that computes it, whatever its value: the text converts to NaN
    and [blockHash > target] is false. *)
Theorem mine_stops_on_letter (fuel : nat) (h : BlockHeader)
    (Hletter : has_letter (getBlockHash h) = true) :
  Js.gt_string_number (getBlockHash h) target = false
  /\ mine (S fuel) h = Some (with_nonce h (bh_nonce h + 1), getBlockHash h).
Proof.
  pose proof (StringToNumber_letter _ Hletter) as Hnan.
  split; [|now apply mine_stops_on_NaN].
  unfold Js.gt_string_number. rewrite Hnan. now destruct target.
Qed.

Lemma mine_stops_on_letter_witness :
  has_letter (getBlockHash header_of_empty_pool) = true
  /\ mine 5 header_of_empty_pool
     = Some (with_nonce header_of_empty_pool (0 + 1),
             getBlockHash header_of_empty_pool).
Proof.
  assert (has_letter (getBlockHash header_of_empty_pool) = true) as Hletter
    by (vm_compute; reflexivity).
  split; [exact Hletter|].
  apply (mine_stops_on_letter 4 header_of_empty_pool Hletter).
Defined.

(** X3. Started at nonce 0, the loop ends on its first turn or not before
    its eleventh: the nonces 0 to 9 give one and the same hash, so a hash
    rejected on the first turn is rejected on the next nine. *)
Theorem mine_first_turn_or_after_ten (fuel : nat) (h h' : BlockHeader)
    (hash : string) (Hstart : bh_nonce h = 0)
    (Hrun : mine fuel h = Some (h', hash)) :
  bh_nonce h' = 1 \/ 10 < bh_nonce h'.
Proof.
  destruct (mine_trace fuel h h' hash Hrun)
    as (k & _ & Hh' & Hhash & Hstop & Hbefore).
  rewrite Hh'. cbn [with_nonce bh_nonce]. rewrite Hstart.
  destruct (Nat.eq_dec k 0%nat) as [-> | Hk0]; [left; lia|].
  destruct (Nat.le_gt_cases k 9%nat) as [Hk9 | Hk9]; [|right; lia].
  exfalso.
  specialize (Hbefore O ltac:(lia)).
  rewrite Z.add_0_r, with_nonce_same in Hbefore.
  rewrite Hhash, Hstart in Hstop.
  rewrite (getBlockHash_nonce_bytes h (0 + Z.of_nat k) 0) in Hstop.
  - rewrite <- Hstart, with_nonce_same in Hstop. congruence.
  - rewrite !single_digit_decodes_to_nothing by lia. reflexivity.
Qed.

Lemma mine_first_turn_or_after_ten_witness :
  bh_nonce header_of_empty_pool = 0
  /\ (bh_nonce (with_nonce header_of_empty_pool 1) = 1
      \/ 10 < bh_nonce (with_nonce header_of_empty_pool 1)).
Proof.
  split; [reflexivity|].
  apply (mine_first_turn_or_after_ten 1 header_of_empty_pool _
           "d91f9a2ee163ac428013877060904068146c4c167df4d6914d571fa849327607"%string);
    [reflexivity | vm_compute; reflexivity].
Defined.

(** ** The Merkle root: repeated last leaf, shape, stack use *)

(** A level that ends with a hash repeated after an even number of hashes
    reduces like the level without the repetition. *)
Lemma newHashes_repeated_last (hashes : list string) (x : string) :
  Nat.Even (length hashes) ->
  newHashes (hashes ++ [x; x]) = newHashes (hashes ++ [x]).
Proof.
  induction hashes as [| h | h1 h2 rest IH] using list_pairs_ind; intros Heven.
  - cbn [app newHashes]. now destruct x.
  - destruct Heven as [n Hn]. cbn [length] in Hn. lia.
  - cbn [app newHashes]. f_equal. apply IH.
    destruct Heven as [n Hn]. cbn [length] in Hn. exists (n - 1)%nat. lia.
Qed.

Lemma merkleRoot_repeated_last (depth : nat) (hashes : list string)
    (x : string) :
  hashes <> [] -> Nat.Even (length hashes) ->
  merkleRoot depth (hashes ++ [x; x]) = merkleRoot depth (hashes ++ [x]).
Proof.
  intros Hne Heven. destruct depth as [|depth]; [reflexivity|].
  destruct hashes as [|h1 [|h2 rest]]; [congruence | |].
  - destruct Heven as [n Hn]. cbn [length] in Hn. lia.
  - change (merkleRoot (S depth) ((h1 :: h2 :: rest) ++ [x; x]))
      with (merkleRoot depth (newHashes ((h1 :: h2 :: rest) ++ [x; x]))).
    change (merkleRoot (S depth) ((h1 :: h2 :: rest) ++ [x]))
      with (merkleRoot depth (newHashes ((h1 :: h2 :: rest) ++ [x]))).
    now rewrite newHashes_repeated_last.
Qed.

(** X4. A list of transactions that ends with the same transaction twice,
    after an even, non-zero number of others, has the root of the list with
    that transaction once: the odd level pairs its last hash with itself,
    which is what the repetition spells out. *)
Theorem getMerkleRoot_repeated_last
    (JSON_stringify : Transaction -> string) (depth : nat)
    (transactions : list Transaction) (t : Transaction)
    (Hne : transactions <> []) (Heven : Nat.Even (length transactions)) :
  getMerkleRoot JSON_stringify depth (transactions ++ [t; t])
  = getMerkleRoot JSON_stringify depth (transactions ++ [t]).
Proof.
  unfold getMerkleRoot. rewrite !map_app. cbn [map].
  apply merkleRoot_repeated_last.
  - destruct transactions; [congruence | discriminate].
  - now rewrite length_map.
Qed.

Lemma getMerkleRoot_repeated_last_witness :
  getMerkleRoot (fun _ => coinbase_json) 3
    ([payment 5000 4000; payment 700 650]
     ++ [coinbaseTransaction 350; coinbaseTransaction 350])
  = getMerkleRoot (fun _ => coinbase_json) 3
      ([payment 5000 4000; payment 700 650] ++ [coinbaseTransaction 350]).
Proof.
  apply getMerkleRoot_repeated_last; [discriminate|].
  exists 1%nat. reflexivity.
Defined.

(** Every hash of a reduced level is a pair hash. *)
Lemma newHashes_are_pair_hashes (hashes : list string) :
  Forall (fun h => exists x y, h = combine x y) (newHashes hashes).
Proof.
  induction hashes as [| h | h1 h2 rest IH] using list_pairs_ind;
    cbn [newHashes]; repeat constructor; eauto.
Qed.

(** A returned root is one of the hashes given, or a pair hash. *)
Lemma merkleRoot_origin (depth : nat) :
  forall (hashes : list string) (root : string),
    merkleRoot depth hashes = Normal root ->
    In root hashes \/ exists x y, root = combine x y.
Proof.
  induction depth as [|depth IH]; intros hashes root H; [discriminate H|].
  assert (merkleRoot depth (newHashes hashes) = Normal root ->
          exists x y, root = combine x y) as Hlevel.
  { intros Hrec. destruct (IH _ _ Hrec) as [Hin | Hpair]; [|exact Hpair].
    pose proof (newHashes_are_pair_hashes hashes) as Hall.
    rewrite List.Forall_forall in Hall. now apply Hall. }
  destruct hashes as [|h1 [|h2 rest]]; cbn [merkleRoot] in H.
  - right. now apply Hlevel.
  - injection H as <-. left. now left.
  - right. now apply Hlevel.
Qed.

Lemma getMerkleRoot_digest (JSON_stringify : Transaction -> string)
    (depth : nat) (transactions : list Transaction) (root : string) :
  getMerkleRoot JSON_stringify depth transactions = Normal root ->
  exists msg, root = Hex.to_hex (SHA256.sha256 msg).
Proof.
  intros Hroot. unfold getMerkleRoot in Hroot.
  apply merkleRoot_origin in Hroot.
  destruct Hroot as [Hin | (x & y & ->)].
  - apply in_map_iff in Hin. destruct Hin as (t & <- & _).
    eexists. reflexivity.
  - rewrite combine_bytes. eexists. reflexivity.
Qed.

(** X5. Whatever root [getMerkleRoot] returns is the hex text of a SHA-256
    digest: sixty-four characters 0-9, a-f, which decode to thirty-two
    bytes and encode back to the same text, so the header field it fills
    always enters the header hash as exactly thirty-two bytes. *)
Theorem getMerkleRoot_is_digest_text
    (JSON_stringify : Transaction -> string) (depth : nat)
    (transactions : list Transaction) (root : string)
    (Hroot : getMerkleRoot JSON_stringify depth transactions = Normal root) :
  String.length root = 64%nat
  /\ Hex.lower_hex root = true
  /\ length (Hex.from_hex root) = 32%nat
  /\ Hex.to_hex (Hex.from_hex root) = root.
Proof.
  destruct (getMerkleRoot_digest _ _ _ _ Hroot) as [msg ->].
  rewrite from_hex_to_hex, to_hex_length, sha256_length.
  repeat split. apply to_hex_lower_hex.
Qed.

Lemma getMerkleRoot_is_digest_text_witness :
  getMerkleRoot (fun _ => coinbase_json) 1 [coinbaseTransaction 0]
  = Normal "3ee6a4b81ce172fe34483c6d5b3d4268e01e3ac885d3aa67066a68a8747dc97f"%string
  /\ String.length
       "3ee6a4b81ce172fe34483c6d5b3d4268e01e3ac885d3aa67066a68a8747dc97f"
     = 64%nat.
Proof.
  assert (getMerkleRoot (fun _ => coinbase_json) 1 [coinbaseTransaction 0]
          = Normal "3ee6a4b81ce172fe34483c6d5b3d4268e01e3ac885d3aa67066a68a8747dc97f"%string)
    as Hroot by (vm_compute; reflexivity).
  split; [exact Hroot|].
  apply (getMerkleRoot_is_digest_text _ _ _ _ Hroot).
Defined.

Lemma newHashes_not_nil (hashes : list string) :
  hashes <> [] -> newHashes hashes <> [].
Proof. destruct hashes as [|h1 [|h2 rest]]; [congruence | | ]; discriminate. Qed.

Lemma newHashes_length_bound (hashes : list string) (d : nat) :
  (length (newHashes hashes) <= 2 ^ d)%nat
  <-> (length hashes <= 2 ^ S d)%nat.
Proof.
  rewrite newHashes_length, Nat.pow_succ_r'.
  pose proof (Nat.div_mod_eq (length hashes + 1) 2) as Hdiv.
  pose proof (Nat.mod_upper_bound (length hashes + 1) 2) as Hmod.
  lia.
Qed.

(** With room for [d + 1] calls the recursion returns exactly on the lists
    of at most [2 ^ d] hashes. *)
Lemma merkleRoot_stack (d : nat) :
  forall hashes : list string,
    hashes <> [] ->
    ((length hashes <= 2 ^ d)%nat ->
     exists root, merkleRoot (S d) hashes = Normal root)
    /\ ((2 ^ d < length hashes)%nat ->
        merkleRoot (S d) hashes = Throw RangeError).
Proof.
  induction d as [|d IH]; intros hashes Hne.
  - destruct hashes as [|h1 [|h2 rest]]; [congruence | |].
    + split; [eexists; reflexivity | cbn; lia].
    + split; [cbn; lia | reflexivity].
  - destruct hashes as [|h1 [|h2 rest]]; [congruence | |].
    + split; [eexists; reflexivity|].
      pose proof (Nat.pow_nonzero 2 (S d)). cbn [length]. lia.
    + change (merkleRoot (S (S d)) (h1 :: h2 :: rest))
        with (merkleRoot (S d) (newHashes (h1 :: h2 :: rest))).
      destruct (IH (newHashes (h1 :: h2 :: rest))) as [Hret Hthrow];
        [apply newHashes_not_nil; discriminate|].
      pose proof (newHashes_length_bound (h1 :: h2 :: rest) d) as Hbound.
      split; intros Hlen; [apply Hret | apply Hthrow]; lia.
Qed.

(** X6. The recursion of [merkleRoot] goes one call deep per halving: on n
    hashes, n at least 1, it returns a root when the stack has room for
    [d + 1] calls with n at most [2 ^ d], and overflows the stack when n is
    larger. *)
Theorem getMerkleRoot_stack_depth
    (JSON_stringify : Transaction -> string) (d : nat)
    (transactions : list Transaction) (Hne : transactions <> []) :
  ((length transactions <= 2 ^ d)%nat ->
   exists root,
     getMerkleRoot JSON_stringify (S d) transactions = Normal root)
  /\ ((2 ^ d < length transactions)%nat ->
      getMerkleRoot JSON_stringify (S d) transactions = Throw RangeError).
Proof.
  unfold getMerkleRoot.
  rewrite <- (length_map (leafHash JSON_stringify) transactions).
  apply merkleRoot_stack. destruct transactions; [congruence | discriminate].
Qed.

Lemma getMerkleRoot_stack_depth_witness :
  [payment 5000 4000; payment 700 650; coinbaseTransaction 350] <> []
  /\ getMerkleRoot (fun _ => coinbase_json) 2
       [payment 5000 4000; payment 700 650; coinbaseTransaction 350]
     = Throw RangeError.
Proof.
  split; [discriminate|].
  apply (getMerkleRoot_stack_depth (fun _ => coinbase_json) 1
           [payment 5000 4000; payment 700 650; coinbaseTransaction 350]);
    [discriminate | cbn; lia].
Defined.

(** ** The valid transactions and their fees *)

Lemma filter_idempotent {A : Type} (f : A -> bool) (l : list A) :
  List.filter f (List.filter f l) = List.filter f l.
Proof.
  induction l as [|x l IH]; [reflexivity|].
  cbn [List.filter]. destruct (f x) eqn:Hx; [|exact IH].
  cbn [List.filter]. now rewrite Hx, IH.
Qed.

(** X7. The push loop that builds [validTransactions] treats each
    transaction on its own: the valid transactions of two pools put end to
    end are those of the first followed by those of the second; every one
    kept passes [validateTransaction], every one that passes is kept, and
    validating the kept ones again keeps them all. *)
Theorem validTransactions_pools (A B : list Transaction) :
  validTransactions (A ++ B) = validTransactions A ++ validTransactions B
  /\ Forall (fun t => validateTransaction t = true) (validTransactions A)
  /\ (forall t, In t A -> validateTransaction t = true ->
                In t (validTransactions A))
  /\ validTransactions (validTransactions A) = validTransactions A
  /\ (length (validTransactions A) <= length A)%nat.
Proof.
  rewrite !validTransactions_filter. split; [apply List.filter_app|].
  split.
  { rewrite List.Forall_forall. intros t Ht.
    now apply List.filter_In in Ht. }
  split.
  { intros t Hin Hpass. apply List.filter_In. now split. }
  split; [apply filter_idempotent | apply List.filter_length_le].
Qed.

Lemma accountant_cons (t : Transaction) (rest : list Transaction) :
  accountant (t :: rest) = accountant [t] + accountant rest.
Proof. apply (accountant_app [t] rest). Qed.





Lemma values_permutation (A B : list Transaction) :
  Permutation A B ->
  sum_Z (input_values A) = sum_Z (input_values B)
  /\ sum_Z (output_values A) = sum_Z (output_values B).
Proof.
  assert (forall t rest,
             sum_Z (input_values (t :: rest))
             = sum_Z (input_values [t]) + sum_Z (input_values rest)
             /\ sum_Z (output_values (t :: rest))
                = sum_Z (output_values [t]) + sum_Z (output_values rest))
    as Hcons.
  { intros t rest. change (t :: rest) with ([t] ++ rest).
    now rewrite input_values_app, output_values_app, !sum_Z_app. }
  induction 1 as [| t A B _ [IHi IHo] | t1 t2 A
                  | A B C _ [IHi1 IHo1] _ [IHi2 IHo2]].
  - now split.
  - destruct (Hcons t A) as [-> ->]. destruct (Hcons t B) as [-> ->]. lia.
  - destruct (Hcons t2 (t1 :: A)) as [-> ->].
    destruct (Hcons t1 (t2 :: A)) as [-> ->].
    destruct (Hcons t1 A) as [-> ->]. destruct (Hcons t2 A) as [-> ->]. lia.
  - lia.
Qed.

Lemma accountant_permutation (A B : list Transaction) :
  Permutation A B -> accountant A = accountant B.
Proof.
  intros H. destruct (values_permutation A B H) as [Hi Ho].
  unfold accountant. lia.
Qed.

(** X9. Within the range of exact sums the fee total does not depend on
    the order in which the pool was read: two orderings of the same
    validated transactions, whose input values sum to at most 2^53 and
    whose output values do, give the same total. *)
Theorem totalFees_order (A B : list Transaction)
    (Hperm : Permutation A B) (HA : Forall validated A)
    (Hinputs : sum_Z (input_values A) <= 2 ^ 53)
    (Houtputs : sum_Z (output_values A) <= 2 ^ 53) :
  totalFees A = totalFees B
  /\ totalFees B = Normal (Num (accountant A)).
Proof.
  assert (Forall validated B) as HB.
  { rewrite List.Forall_forall in *. intros t Ht. apply HA.
    eapply Permutation_in; [symmetry; exact Hperm | exact Ht]. }
  destruct (values_permutation A B Hperm) as [Hi Ho].
  unfold totalFees.
  rewrite (fee_loop_validated A HA) by lia.
  rewrite (fee_loop_validated B HB) by lia.
  now rewrite (accountant_permutation A B Hperm).
Qed.

Lemma totalFees_order_witness :
  totalFees [payment 5000 4000; payment 700 650]
  = totalFees [payment 700 650; payment 5000 4000]
  /\ totalFees [payment 700 650; payment 5000 4000]
     = Normal (Num (accountant [payment 5000 4000; payment 700 650])).
Proof.
  apply totalFees_order.
  - apply perm_swap.
  - repeat constructor; apply payment_validated; lia.
  - vm_compute. discriminate.
  - vm_compute. discriminate.
Defined.

(** X10. The coinbase transaction the script puts first in the block does
    not pass the script's own validation, whatever the fees: its previous
    output names no script type and its output is of type p2pkh.  Fed back
    through a pool it would be dropped. *)
Theorem coinbaseTransaction_not_valid (fees : Z)
    (transactions : list Transaction) :
  validateTransaction (coinbaseTransaction fees) = false
  /\ validTransactions (transactions ++ [coinbaseTransaction fees])
     = validTransactions transactions
  /\ ~ In (coinbaseTransaction fees) (validTransactions transactions).
Proof.
  assert (validateTransaction (coinbaseTransaction fees) = false) as Hno
    by reflexivity.
  split; [exact Hno|].
  rewrite !validTransactions_filter, List.filter_app. cbn [List.filter].
  rewrite Hno, app_nil_r. split; [reflexivity|].
  intros Hin. apply List.filter_In in Hin. destruct Hin as [_ Hyes]. congruence.
Qed.

(** ** The report: what it holds and how it reads back *)

Lemma append_nil_l (b : string) : EmptyString +:+ b = b.
Proof. reflexivity. Qed.

(** Two texts cut at their first space agree part by part. *)
Lemma append_space_split (a : string) :
  forall a' b b' : string,
    no_space a = true -> no_space a' = true ->
    a +:+ " " +:+ b = a' +:+ " " +:+ b' -> a = a' /\ b = b'.
Proof.
  induction a as [|c a IH]; intros [|c' a'] b b' Ha Ha' Heq.
  - rewrite !append_nil_l, !append_cons in Heq. now injection Heq.
  - rewrite append_nil_l, !append_cons in Heq. injection Heq as <- _.
    discriminate Ha'.
  - rewrite append_nil_l, !append_cons in Heq. injection Heq as -> _.
    discriminate Ha.
  - rewrite !append_cons in Heq. injection Heq as <- Heq.
    cbn [no_space] in Ha, Ha'. apply andb_true_iff in Ha, Ha'.
    destruct (IH a' b b' (proj2 Ha) (proj2 Ha') Heq) as [-> ->]. now split.
Qed.

Lemma string_of_uint_no_space (d : Decimal.uint) :
  no_space (NilEmpty.string_of_uint d) = true.
Proof. induction d; cbn; auto. Qed.

Lemma Number_toString_no_space (z : Z) : no_space (Js.Number_toString z) = true.
Proof.
  unfold Js.Number_toString.
  destruct (Z.to_int z) as [d | d]; cbn [NilZero.string_of_int no_space].
  - destruct d; try reflexivity; apply string_of_uint_no_space.
  - destruct d; try reflexivity; apply string_of_uint_no_space.
Qed.

Lemma Number_toString_inj (a b : Z) :
  Js.Number_toString a = Js.Number_toString b -> a = b.
Proof.
  intros H. pose proof (Number_toString_denotes a) as Ha.
  rewrite H, Number_toString_denotes in Ha. now injection Ha.
Qed.

Lemma lower_hex_no_space (s : string) :
  Hex.lower_hex s = true -> no_space s = true.
Proof.
  induction s as [|c s IH]; [reflexivity|].
  cbn [Hex.lower_hex no_space]. rewrite !andb_true_iff.
  intros [Hc Hs]. split; [|now apply IH].
  destruct (Ascii.eqb_spec c " ") as [-> | _]; [discriminate Hc | reflexivity].
Qed.

(** X11. The header line of the report determines the header: two headers
    whose three hash fields are hex text and whose lines are equal have the
    same six fields, so the line can be read back without loss. *)
Theorem getBlockHeaderString_injective (h1 h2 : BlockHeader)
    (Hprev1 : Hex.lower_hex (bh_prevBlockHash h1) = true)
    (Hprev2 : Hex.lower_hex (bh_prevBlockHash h2) = true)
    (Hroot1 : Hex.lower_hex (bh_merkleRoot h1) = true)
    (Hroot2 : Hex.lower_hex (bh_merkleRoot h2) = true)
    (Hbits1 : Hex.lower_hex (bh_bits h1) = true)
    (Hbits2 : Hex.lower_hex (bh_bits h2) = true)
    (Hline : getBlockHeaderString h1 = getBlockHeaderString h2) :
  h1 = h2.
Proof.
  unfold getBlockHeaderString in Hline.
  apply append_space_split in Hline; try apply Number_toString_no_space.
  destruct Hline as [Hv Hline]. apply Number_toString_inj in Hv.
  apply append_space_split in Hline; try now apply lower_hex_no_space.
  destruct Hline as [Hp Hline].
  apply append_space_split in Hline; try now apply lower_hex_no_space.
  destruct Hline as [Hr Hline].
  apply append_space_split in Hline; try apply Number_toString_no_space.
  destruct Hline as [Ht Hline]. apply Number_toString_inj in Ht.
  apply append_space_split in Hline; try now apply lower_hex_no_space.
  destruct Hline as [Hb Hn]. apply Number_toString_inj in Hn.
  destruct h1, h2. cbn in *. congruence.
Qed.

Lemma getBlockHeaderString_injective_witness :
  getBlockHeaderString (with_nonce header_of_empty_pool (0 + 1))
  = getBlockHeaderString (with_nonce header_of_empty_pool 1)
  /\ with_nonce header_of_empty_pool (0 + 1)
     = with_nonce header_of_empty_pool 1.
Proof.
  split; [reflexivity|].
  apply getBlockHeaderString_injective; reflexivity.
Defined.

(** X12. The three writes leave every file of the directory as it was
    except the output file, which holds the report and nothing of what it
    held before; so writing the report over an earlier report, or over any
    other content, gives the same files as writing it once. *)
Theorem write_output_overwrites (JSON_stringify : Transaction -> string)
    (blockHeader : BlockHeader) (coinbase : Transaction)
    (valid : list Transaction) (fs : gmap string string) (old : string) :
  write_output JSON_stringify blockHeader coinbase valid fs
  = <[ outputFile := report JSON_stringify blockHeader coinbase valid ]> fs
  /\ write_output JSON_stringify blockHeader coinbase valid
       (<[ outputFile := old ]> fs)
     = write_output JSON_stringify blockHeader coinbase valid fs
  /\ write_output JSON_stringify blockHeader coinbase valid
       (write_output JSON_stringify blockHeader coinbase valid fs)
     = write_output JSON_stringify blockHeader coinbase valid fs.
Proof.
  assert (forall fs0 : gmap string string,
             write_output JSON_stringify blockHeader coinbase valid fs0
             = <[ outputFile
                  := report JSON_stringify blockHeader coinbase valid ]> fs0)
    as Hwhole.
  { intros fs0. unfold write_output.
    destruct (append_loop JSON_stringify valid
                (appendFileSync outputFile
                   (getTransactionString JSON_stringify coinbase +:+ newline)
                   (writeFileSync outputFile
                      (getBlockHeaderString blockHeader +:+ newline) fs0))
                ((getBlockHeaderString blockHeader +:+ newline)
                 +:+ JSON_stringify coinbase +:+ newline))
      as [Hfile Hothers].
    { unfold appendFileSync, writeFileSync, getTransactionString.
      rewrite !lookup_insert_eq. reflexivity. }
    cbv zeta in Hfile, Hothers.
    apply map_eq. intros file.
    destruct (decide (file = outputFile)) as [-> | Hne].
    - rewrite Hfile, lookup_insert_eq. unfold report. cbn [fold_right].
      f_equal. now rewrite !append_assoc.
    - rewrite lookup_insert_ne by congruence.
      rewrite <- (lookup_delete_ne _ outputFile file) by congruence.
      rewrite Hothers. unfold appendFileSync, writeFileSync.
      rewrite !delete_insert_eq. now rewrite lookup_delete_ne by congruence. }
  split; [apply Hwhole|].
  rewrite !Hwhole. split; apply insert_insert_eq.
Qed.

Lemma count_newlines_append (a b : string) :
  count_newlines (a +:+ b) = (count_newlines a + count_newlines b)%nat.
Proof.
  induction a as [|c a IH]; [reflexivity|].
  rewrite append_cons. cbn [count_newlines]. rewrite IH. lia.
Qed.

Lemma string_of_uint_one_line (d : Decimal.uint) :
  count_newlines (NilEmpty.string_of_uint d) = O.
Proof. induction d; cbn; auto. Qed.

Lemma Number_toString_one_line (z : Z) :
  count_newlines (Js.Number_toString z) = O.
Proof.
  unfold Js.Number_toString.
  destruct (Z.to_int z) as [d | d]; cbn [NilZero.string_of_int count_newlines].
  - destruct d; try reflexivity; apply string_of_uint_one_line.
  - destruct d; try reflexivity; apply string_of_uint_one_line.
Qed.

Lemma lower_hex_one_line (s : string) :
  Hex.lower_hex s = true -> count_newlines s = O.
Proof.
  induction s as [|c s IH]; [reflexivity|].
  cbn [Hex.lower_hex count_newlines]. rewrite andb_true_iff.
  intros [Hc Hs]. rewrite (IH Hs).
  destruct (Ascii.eqb_spec c "010") as [-> | _]; [discriminate Hc | reflexivity].
Qed.

Lemma count_newlines_lines (JSON_stringify : Transaction -> string)
    (valid : list Transaction) :
  (forall t, count_newlines (JSON_stringify t) = O) ->
  count_newlines
    (fold_right (fun line rest => line +:+ newline +:+ rest)
       EmptyString (map JSON_stringify valid))
  = length valid.
Proof.
  intros Hjson. induction valid as [|t rest IH]; [reflexivity|].
  cbn [map fold_right length].
  rewrite !count_newlines_append, Hjson, IH. reflexivity.
Qed.

(** X13. When the serialised transactions hold no line end (JSON.stringify
    without indentation writes none) and the header's hash fields are hex
    text, the report has exactly as many line ends as it has records: one
    for the header, one for the coinbase, one for each valid
    transaction. *)
Theorem report_line_count (JSON_stringify : Transaction -> string)
    (blockHeader : BlockHeader) (coinbase : Transaction)
    (valid : list Transaction) (fs : gmap string string)
    (Hjson : forall t, count_newlines (JSON_stringify t) = O)
    (Hprev : Hex.lower_hex (bh_prevBlockHash blockHeader) = true)
    (Hroot : Hex.lower_hex (bh_merkleRoot blockHeader) = true)
    (Hbits : Hex.lower_hex (bh_bits blockHeader) = true) :
  exists text,
    write_output JSON_stringify blockHeader coinbase valid fs !! outputFile
    = Some text
    /\ count_newlines text = (2 + length valid)%nat.
Proof.
  destruct (append_loop JSON_stringify valid
              (appendFileSync outputFile
                 (getTransactionString JSON_stringify coinbase +:+ newline)
                 (writeFileSync outputFile
                    (getBlockHeaderString blockHeader +:+ newline) fs))
              ((getBlockHeaderString blockHeader +:+ newline)
               +:+ JSON_stringify coinbase +:+ newline))
    as [Hfile _].
  { unfold appendFileSync, writeFileSync, getTransactionString.
    rewrite !lookup_insert_eq. reflexivity. }
  cbv zeta in Hfile. eexists. split; [exact Hfile|].
  rewrite !count_newlines_append, Hjson.
  assert (count_newlines (getBlockHeaderString blockHeader) = O) as ->.
  { unfold getBlockHeaderString.
    rewrite !count_newlines_append, !Number_toString_one_line,
      (lower_hex_one_line _ Hprev), (lower_hex_one_line _ Hroot),
      (lower_hex_one_line _ Hbits).
    reflexivity. }
  rewrite (count_newlines_lines JSON_stringify valid Hjson).
  reflexivity.
Qed.

Lemma report_line_count_witness :
  exists text,
    write_output (fun _ => coinbase_json) header_of_empty_pool
      (coinbaseTransaction 0) [payment 5000 4000] ∅ !! outputFile
    = Some text
    /\ count_newlines text = 3%nat.
Proof.
  apply (report_line_count (fun _ => coinbase_json) header_of_empty_pool
           (coinbaseTransaction 0) [payment 5000 4000] ∅);
    [intros _; vm_compute; reflexivity | reflexivity..].
Defined.

(** ** The last digit of an odd-length nonce *)

Lemma to_lu_push (p : positive) (d : Z) :
  0 <= d <= 9 ->
  DecimalPos.Unsigned.to_lu (10 * N.pos p + Z.to_N d)
  = push_digit d (DecimalPos.Unsigned.to_lu (N.pos p)).
Proof.
  intros Hd.
  assert (d = 0 \/ d = 1 \/ d = 2 \/ d = 3 \/ d = 4 \/ d = 5 \/ d = 6
          \/ d = 7 \/ d = 8 \/ d = 9) as Hcases by lia.
  pose proof (DecimalPos.Unsigned.to_ldec_tenfold p) as Hten.
  assert (forall n : N, (n + 1 = N.succ n)%N) as Hsucc by (intros; lia).
  destruct Hcases as [-> | [-> | [-> | [-> | [-> | [-> | [-> | [-> | [-> | ->]]]]]]]]];
    cbn [Z.to_N push_digit].
  - now rewrite N.add_0_r.
  - rewrite Hsucc, DecimalPos.Unsigned.to_lu_succ, Hten. reflexivity.
  - replace (10 * N.pos p + 2)%N
      with (N.succ (N.succ (10 * N.pos p))) by lia.
    rewrite !DecimalPos.Unsigned.to_lu_succ, Hten. reflexivity.
  - replace (10 * N.pos p + 3)%N
      with (N.succ (N.succ (N.succ (10 * N.pos p)))) by lia.
    rewrite !DecimalPos.Unsigned.to_lu_succ, Hten. reflexivity.
  - replace (10 * N.pos p + 4)%N
      with (N.succ (N.succ (N.succ (N.succ (10 * N.pos p))))) by lia.
    rewrite !DecimalPos.Unsigned.to_lu_succ, Hten. reflexivity.
  - replace (10 * N.pos p + 5)%N
      with (N.succ (N.succ (N.succ (N.succ (N.succ (10 * N.pos p))))))
      by lia.
    rewrite !DecimalPos.Unsigned.to_lu_succ, Hten. reflexivity.
  - replace (10 * N.pos p + 6)%N
      with (N.succ (N.succ (N.succ (N.succ (N.succ (N.succ
              (10 * N.pos p))))))) by lia.
    rewrite !DecimalPos.Unsigned.to_lu_succ, Hten. reflexivity.
  - replace (10 * N.pos p + 7)%N
      with (N.succ (N.succ (N.succ (N.succ (N.succ (N.succ (N.succ
              (10 * N.pos p)))))))) by lia.
    rewrite !DecimalPos.Unsigned.to_lu_succ, Hten. reflexivity.
  - replace (10 * N.pos p + 8)%N
      with (N.succ (N.succ (N.succ (N.succ (N.succ (N.succ (N.succ (N.succ
              (10 * N.pos p))))))))) by lia.
    rewrite !DecimalPos.Unsigned.to_lu_succ, Hten. reflexivity.
  - replace (10 * N.pos p + 9)%N
      with (N.succ (N.succ (N.succ (N.succ (N.succ (N.succ (N.succ (N.succ
              (N.succ (10 * N.pos p)))))))))) by lia.
    rewrite !DecimalPos.Unsigned.to_lu_succ, Hten. reflexivity.
Qed.

Lemma string_of_revapp (l : Decimal.uint) :
  forall acc : Decimal.uint,
    NilEmpty.string_of_uint (Decimal.revapp l acc)
    = NilEmpty.string_of_uint (Decimal.rev l)
      +:+ NilEmpty.string_of_uint acc.
Proof.
  unfold Decimal.rev.
  induction l as [|l IH|l IH|l IH|l IH|l IH|l IH|l IH|l IH|l IH|l IH];
    intros acc; cbn [Decimal.revapp];
    [reflexivity | rewrite (IH (_ acc)), (IH (_ Decimal.Nil)), append_assoc;
                   reflexivity ..].
Qed.

Lemma string_of_rev_push (d : Z) (l : Decimal.uint) :
  0 <= d <= 9 ->
  NilEmpty.string_of_uint (Decimal.rev (push_digit d l))
  = NilEmpty.string_of_uint (Decimal.rev l)
    +:+ String (Hex.hexdigit d) EmptyString.
Proof.
  intros Hd.
  assert (d = 0 \/ d = 1 \/ d = 2 \/ d = 3 \/ d = 4 \/ d = 5 \/ d = 6
          \/ d = 7 \/ d = 8 \/ d = 9) as Hcases by lia.
  destruct Hcases as [-> | [-> | [-> | [-> | [-> | [-> | [-> | [-> | [-> | ->]]]]]]]]];
    cbn [push_digit]; unfold Decimal.rev at 1; cbn [Decimal.revapp];
    now rewrite string_of_revapp.
Qed.

Lemma string_of_uint_not_nil (u : Decimal.uint) :
  u <> Decimal.Nil ->
  NilZero.string_of_uint u = NilEmpty.string_of_uint u.
Proof. destruct u; [congruence | reflexivity ..]. Qed.

Lemma Number_toString_pos (p : positive) :
  Js.Number_toString (Z.pos p)
  = NilEmpty.string_of_uint
      (Decimal.rev (DecimalPos.Unsigned.to_lu (N.pos p))).
Proof.
  unfold Js.Number_toString. cbn [Z.to_int NilZero.string_of_int].
  rewrite string_of_uint_not_nil
    by apply DecimalPos.Unsigned.to_uint_nonnil.
  reflexivity.
Qed.

(** The decimal text of [10 * n + d] is the text of [n] followed by the
    digit [d]. *)
Lemma Number_toString_tenfold (n d : Z) :
  0 < n -> 0 <= d <= 9 ->
  Js.Number_toString (10 * n + d)
  = Js.Number_toString n +:+ String (Hex.hexdigit d) EmptyString.
Proof.
  intros Hn Hd. destruct n as [|p|p]; try lia.
  destruct (10 * Z.pos p + d) as [|q|q] eqn:Hq; try lia.
  rewrite !Number_toString_pos.
  replace (N.pos q) with (10 * N.pos p + Z.to_N d)%N by lia.
  now rewrite to_lu_push, string_of_rev_push.
Qed.

Lemma string_of_uint_lower_hex (u : Decimal.uint) :
  Hex.lower_hex (NilEmpty.string_of_uint u) = true.
Proof. induction u; cbn; auto. Qed.

Lemma Number_toString_lower_hex (p : positive) :
  Hex.lower_hex (Js.Number_toString (Z.pos p)) = true.
Proof. rewrite Number_toString_pos. apply string_of_uint_lower_hex. Qed.

Lemma lower_hex_digit_unhex (c : ascii) :
  Hex.lower_hex_digit c = true -> exists v, Hex.unhex c = Some v.
Proof.
  unfold Hex.lower_hex_digit, Hex.unhex. cbv zeta.
  destruct ((48 <=? Z.of_N (N_of_ascii c)) && (Z.of_N (N_of_ascii c) <=? 57));
    [eauto|].
  destruct ((97 <=? Z.of_N (N_of_ascii c)) && (Z.of_N (N_of_ascii c) <=? 102));
    [eauto | discriminate].
Qed.

(** Decoding hex text of even length followed by one more character drops
    that character. *)
Lemma from_hex_drops_odd_character (n : nat) :
  forall (s : string) (c : ascii),
    String.length s = (2 * n)%nat -> Hex.lower_hex s = true ->
    Hex.from_hex (s +:+ String c EmptyString) = Hex.from_hex s.
Proof.
  induction n as [|n IH]; intros s c Hlen Hhex.
  - destruct s; [reflexivity | discriminate Hlen].
  - destruct s as [|c1 [|c2 rest]]; try (cbn in Hlen; lia).
    cbn [Hex.lower_hex] in Hhex. rewrite !andb_true_iff in Hhex.
    destruct Hhex as (H1 & H2 & Hrest).
    destruct (lower_hex_digit_unhex c1 H1) as [v1 Hv1].
    destruct (lower_hex_digit_unhex c2 H2) as [v2 Hv2].
    rewrite !append_cons. cbn [Hex.from_hex]. rewrite Hv1, Hv2.
    f_equal. apply IH; [cbn in Hlen; lia | exact Hrest].
Qed.

(** X14. A nonce whose decimal text has an odd number of digits hashes like
    the nonce without its last digit: for a positive n written with an even
    number of digits, the ten nonces 10 n to 10 n + 9, as far as they are
    safe integers, all give the header hash of nonce n, so of any ten such
    consecutive turns of the mining loop nine recompute a hash already
    seen. *)
Theorem getBlockHash_ignores_last_digit (h : BlockHeader) (n d : Z)
    (Hn : 0 < n) (Hd : 0 <= d <= 9)
    (Hsafe : 10 * n + d <= Js.MAX_SAFE_INTEGER)
    (Heven : Nat.Even (String.length (Js.Number_toString n))) :
  Js.Number_toString (10 * n + d)
  = Js.Number_toString n +:+ String (Hex.hexdigit d) EmptyString
  /\ Hex.from_hex (Js.Number_toString (10 * n + d))
     = Hex.from_hex (Js.Number_toString n)
  /\ getBlockHash (with_nonce h (10 * n + d)) = getBlockHash (with_nonce h n).
Proof.
  pose proof (Number_toString_tenfold n d Hn Hd) as Htext.
  assert (Hex.from_hex (Js.Number_toString (10 * n + d))
          = Hex.from_hex (Js.Number_toString n)) as Hbytes.
  { rewrite Htext. destruct Heven as [k Hk].
    apply (from_hex_drops_odd_character k); [exact Hk|].
    destruct n as [|p|p]; try lia. apply Number_toString_lower_hex. }
  split; [exact Htext|]. split; [exact Hbytes|].
  now apply getBlockHash_nonce_bytes.
Qed.

Lemma getBlockHash_ignores_last_digit_witness :
  Js.Number_toString (10 * 4321 + 7) = "43217"%string
  /\ Hex.from_hex (Js.Number_toString (10 * 4321 + 7)) = [x43; x21]
  /\ getBlockHash (with_nonce header_of_empty_pool (10 * 4321 + 7))
     = getBlockHash (with_nonce header_of_empty_pool 4321).
Proof.
  apply (getBlockHash_ignores_last_digit header_of_empty_pool 4321 7);
    [lia | lia | vm_compute; discriminate | exists 2%nat; reflexivity].
Defined.

(** ** From the header the script builds to the header it reports *)

(** X15. Mining changes nothing of the header but its nonce.  The header
    the script builds starts at nonce 0 with version 1, the all-zero
    previous hash, the clock's timestamp, the fixed bits and the Merkle
    root of the valid transactions followed by the coinbase; the header it
    reports after the loop has the same five fields, all three hash fields
    in hex text, and a nonce of at least 1, one more than the number of
    hashes the loop rejected. *)
Theorem mined_header_fields (JSON_stringify : Transaction -> string)
    (depth fuel : nat) (valid : list Transaction) (coinbase : Transaction)
    (now : Z) (h h' : BlockHeader) (hash : string)
    (Hbuilt : blockHeader JSON_stringify depth valid coinbase now = Normal h)
    (Hmined : mine fuel h = Some (h', hash)) :
  bh_nonce h = 0
  /\ bh_version h' = 1
  /\ bh_prevBlockHash h' = zero_hash
  /\ getMerkleRoot JSON_stringify depth (valid ++ [coinbase])
     = Normal (bh_merkleRoot h')
  /\ bh_timestamp h' = now
  /\ bh_bits h' = difficulty_bits
  /\ 1 <= bh_nonce h' <= Z.of_nat fuel
  /\ Hex.lower_hex (bh_prevBlockHash h') = true
  /\ Hex.lower_hex (bh_merkleRoot h') = true
  /\ Hex.lower_hex (bh_bits h') = true
  /\ String.length hash = 64%nat.
Proof.
  unfold blockHeader in Hbuilt.
  destruct (getMerkleRoot JSON_stringify depth (valid ++ [coinbase]))
    as [root|e] eqn:Hroot; [|discriminate Hbuilt].
  injection Hbuilt as <-.
  destruct (mine_trace fuel _ _ _ Hmined) as (k & Hk & -> & -> & _ & _).
  cbn [with_nonce bh_version bh_prevBlockHash bh_merkleRoot bh_timestamp
         bh_bits bh_nonce].
  destruct (getMerkleRoot_digest _ _ _ _ Hroot) as [msg Hmsg].
  repeat split; try reflexivity; try lia.
  rewrite Hmsg. apply to_hex_lower_hex.
Qed.

Lemma mined_header_fields_witness :
  blockHeader (fun _ => coinbase_json) 1 [] (coinbaseTransaction 0) 1713571200
  = Normal header_of_empty_pool
  /\ bh_nonce (with_nonce header_of_empty_pool 1) = 1
  /\ bh_timestamp (with_nonce header_of_empty_pool 1) = 1713571200.
Proof.
  assert (blockHeader (fun _ => coinbase_json) 1 [] (coinbaseTransaction 0)
            1713571200
          = Normal header_of_empty_pool) as Hbuilt
    by (vm_compute; reflexivity).
  assert (mine 1 header_of_empty_pool
          = Some (with_nonce header_of_empty_pool 1,
                  "d91f9a2ee163ac428013877060904068146c4c167df4d6914d571fa849327607"%string))
    as Hmined by (vm_compute; reflexivity).
  split; [exact Hbuilt|].
  pose proof (mined_header_fields _ _ _ _ _ _ _ _ _ Hbuilt Hmined) as H.
  split; [reflexivity | apply H].
Defined.

(** ** The numbers of the header: base-ten text, hex-decoded *)

Lemma digits_text_app (ds : list Z) (d : Z) :
  digits_text (ds ++ [d])
  = digits_text ds +:+ String (Hex.hexdigit d) EmptyString.
Proof.
  unfold digits_text. induction ds as [|x ds IH]; [reflexivity|].
  cbn [app fold_right]. now rewrite append_cons, IH.
Qed.

Lemma single_digit_text (d : Z) :
  0 <= d <= 9 -> Js.Number_toString d = String (Hex.hexdigit d) EmptyString.
Proof.
  intros Hd.
  assert (d = 0 \/ d = 1 \/ d = 2 \/ d = 3 \/ d = 4 \/ d = 5 \/ d = 6
          \/ d = 7 \/ d = 8 \/ d = 9) as Hcases by lia.
  repeat (destruct Hcases as [-> | Hcases]; [reflexivity|]).
  now subst d.
Qed.

Lemma unhex_hexdigit (d : Z) :
  decimal_digit d -> Hex.unhex (Hex.hexdigit d) = Some d.
Proof.
  unfold decimal_digit. intros Hd.
  assert (d = 0 \/ d = 1 \/ d = 2 \/ d = 3 \/ d = 4 \/ d = 5 \/ d = 6
          \/ d = 7 \/ d = 8 \/ d = 9) as Hcases by lia.
  repeat (destruct Hcases as [-> | Hcases]; [reflexivity|]).
  now subst d.
Qed.

Lemma log2_tenth (n : Z) : 10 <= n -> Z.log2 (n / 10) < Z.log2 n.
Proof.
  intros Hn.
  assert (0 < n / 10) as Hq by (apply Z.div_str_pos; lia).
  apply Z.log2_lt_pow2; [exact Hq|].
  assert (0 < n) as Hpos by lia.
  pose proof (Z.log2_spec n Hpos) as [_ Hhi].
  pose proof (Z.log2_nonneg n) as Hlog.
  rewrite Z.pow_succ_r in Hhi by exact Hlog.
  assert (0 < 2 ^ Z.log2 n) as Hpow by (apply Z.pow_pos_nonneg; lia).
  apply Z.div_lt_upper_bound; lia.
Qed.

(** The digits of the specification are the characters [toString]
    writes. *)
Lemma decimal_digits_text (fuel : nat) :
  forall n : Z,
    0 <= n -> Z.log2 n < Z.of_nat fuel ->
    digits_text (decimal_digits_upto fuel n) = Js.Number_toString n.
Proof.
  induction fuel as [|fuel IH]; intros n Hn Hlog.
  - pose proof (Z.log2_nonneg n). lia.
  - cbn [decimal_digits_upto]. destruct (n <? 10) eqn:E.
    + apply Z.ltb_lt in E. now rewrite single_digit_text by lia.
    + apply Z.ltb_ge in E.
      assert (0 < n / 10) as Hq by (apply Z.div_str_pos; lia).
      pose proof (log2_tenth n E) as Hless.
      pose proof (Z.mod_pos_bound n 10 ltac:(lia)) as Hr.
      rewrite digits_text_app, IH by lia.
      rewrite <- Number_toString_tenfold by lia.
      f_equal. symmetry. apply Z.div_mod. lia.
Qed.

Lemma decimal_digits_upto_digits (fuel : nat) :
  forall n : Z, 0 <= n -> Forall decimal_digit (decimal_digits_upto fuel n).
Proof.
  induction fuel as [|fuel IH]; intros n Hn; [constructor|].
  cbn [decimal_digits_upto]. destruct (n <? 10) eqn:E.
  - apply Z.ltb_lt in E. constructor; [unfold decimal_digit; lia|constructor].
  - apply Forall_app. split.
    + apply IH. apply Z.div_pos; lia.
    + pose proof (Z.mod_pos_bound n 10 ltac:(lia)) as Hr.
      constructor; [unfold decimal_digit; lia|constructor].
Qed.

Lemma decimal_digits_are_digits (n : Z) :
  0 <= n -> Forall decimal_digit (decimal_digits n).
Proof. apply decimal_digits_upto_digits. Qed.

Lemma Number_toString_digits (n : Z) :
  0 <= n -> Js.Number_toString n = digits_text (decimal_digits n).
Proof.
  intros Hn. unfold decimal_digits. symmetry.
  apply decimal_digits_text; [exact Hn|].
  pose proof (Z.log2_nonneg n). lia.
Qed.

Lemma from_hex_digits_text (ds : list Z) :
  Forall decimal_digit ds -> Hex.from_hex (digits_text ds) = digit_pairs ds.
Proof.
  induction ds as [|x|x y ds IH] using list_pairs_ind; intros Hds.
  - reflexivity.
  - reflexivity.
  - apply Forall_cons_1 in Hds. destruct Hds as [Hx Hds].
    apply Forall_cons_1 in Hds. destruct Hds as [Hy Hds].
    unfold digits_text. cbn [fold_right Hex.from_hex digit_pairs].
    rewrite (unhex_hexdigit x Hx), (unhex_hexdigit y Hy).
    f_equal. now apply IH.
Qed.

(** Decoding the text of a number as hex gives the encoding of the
    specification. *)
Lemma from_hex_Number_toString (n : Z) :
  0 <= n -> Hex.from_hex (Js.Number_toString n) = decimal_then_hex n.
Proof.
  intros Hn. unfold decimal_then_hex.
  rewrite (Number_toString_digits n Hn).
  apply from_hex_digits_text, decimal_digits_are_digits, Hn.
Qed.

Lemma getBlockHash_buffer (h : BlockHeader) :
  getBlockHash h
  = Hex.to_hex (SHA256.sha256 (SHA256.sha256 (blockHeaderBuffer h))).
Proof.
  unfold getBlockHash, blockHeaderBuffer, Crypto.digest_hex, Crypto.digest,
    Crypto.update, Crypto.createHash_sha256.
  cbn [Crypto.pending app]. reflexivity.
Qed.

Lemma blockHeaderBuffer_layout (h : BlockHeader) :
  blockHeaderBuffer h
  = Hex.from_hex (Js.Number_toString (bh_version h))
    ++ Hex.from_hex (bh_prevBlockHash h)
    ++ Hex.from_hex (bh_merkleRoot h)
    ++ Hex.from_hex (Js.Number_toString (bh_timestamp h))
    ++ Hex.from_hex (bh_bits h)
    ++ Hex.from_hex (Js.Number_toString (bh_nonce h)).
Proof.
  unfold blockHeaderBuffer, Buffer_concat. cbn [concat].
  now rewrite app_nil_r.
Qed.

(** C3. For a header whose version, timestamp and nonce are non-negative
    safe integers, [getBlockHash] hashes, twice, the six encodings joined in
    the order version, prevBlockHash, merkleRoot, timestamp, bits, nonce,
    and returns the hex text of the second digest.  A number is encoded by
    writing it in base ten and reading the digits two at a time as
    hexadecimal, not as four little-endian bytes: version 1 gives no byte,
    the timestamp 1713571200 the five bytes 17 13 57 12 00.  A hex field is
    encoded by the bytes it is the hex text of. *)
Theorem getBlockHash_layout (h : BlockHeader)
    (Hversion : 0 <= bh_version h <= Js.MAX_SAFE_INTEGER)
    (Htimestamp : 0 <= bh_timestamp h <= Js.MAX_SAFE_INTEGER)
    (Hnonce : 0 <= bh_nonce h <= Js.MAX_SAFE_INTEGER) :
  getBlockHash h = headerHash h
  /\ Hex.from_hex (getBlockHash h)
     = SHA256.sha256
         (SHA256.sha256
            (decimal_then_hex (bh_version h)
             ++ Hex.from_hex (bh_prevBlockHash h)
             ++ Hex.from_hex (bh_merkleRoot h)
             ++ decimal_then_hex (bh_timestamp h)
             ++ Hex.from_hex (bh_bits h)
             ++ decimal_then_hex (bh_nonce h)))
  /\ String.length (getBlockHash h) = 64%nat
  /\ (forall prevBlockHash merkleRoot bits : list byte,
         bh_prevBlockHash h = Hex.to_hex prevBlockHash ->
         bh_merkleRoot h = Hex.to_hex merkleRoot ->
         bh_bits h = Hex.to_hex bits ->
         getBlockHash h
         = Hex.to_hex
             (SHA256.sha256
                (SHA256.sha256
                   (decimal_then_hex (bh_version h)
                    ++ prevBlockHash ++ merkleRoot
                    ++ decimal_then_hex (bh_timestamp h)
                    ++ bits
                    ++ decimal_then_hex (bh_nonce h)))))
  /\ Js.Number_toString (bh_version h)
     = digits_text (decimal_digits (bh_version h))
  /\ Js.Number_toString (bh_timestamp h)
     = digits_text (decimal_digits (bh_timestamp h))
  /\ Js.Number_toString (bh_nonce h)
     = digits_text (decimal_digits (bh_nonce h))
  /\ decimal_digits 1713571200 = [1; 7; 1; 3; 5; 7; 1; 2; 0; 0]
  /\ decimal_then_hex 1713571200 = [x17; x13; x57; x12; x00]
  /\ decimal_then_hex 1 = []
  /\ decimal_then_hex 1 <> [x01; x00; x00; x00].
Proof.
  assert (getBlockHash h = headerHash h) as Heq.
  { rewrite getBlockHash_buffer, blockHeaderBuffer_layout.
    rewrite !from_hex_Number_toString by lia. reflexivity. }
  split; [exact Heq|]. split.
  { rewrite Heq. unfold headerHash. apply from_hex_to_hex. }
  split; [apply digest_hex_length|]. split.
  { intros prevBlockHash merkleRoot bits Hp Hm Hb. rewrite Heq.
    unfold headerHash. rewrite Hp, Hm, Hb. now rewrite !from_hex_to_hex. }
  split; [apply Number_toString_digits; lia|].
  split; [apply Number_toString_digits; lia|].
  split; [apply Number_toString_digits; lia|].
  repeat split; try (vm_compute; reflexivity). discriminate.
Qed.

Lemma getBlockHash_layout_witness :
  getBlockHash header_of_empty_pool = headerHash header_of_empty_pool
  /\ decimal_then_hex (bh_timestamp header_of_empty_pool)
     = [x17; x13; x57; x12; x00].
Proof.
  split; [|vm_compute; reflexivity].
  apply (getBlockHash_layout header_of_empty_pool);
    vm_compute; split; discriminate.
Defined.

(** ** What a change of nonce does to the hash *)








